(** * Quiz engine: question shuffling, answer history, scoring and loading

    A shallow embedding of [library/models.py] and of the record-processing
    part of [library/question_loader.py], together with the properties the
    specification states about them.

    Conventions of the embedding:
    - a Python [int] is a [Z]; a [Set[int]] is a [gset Z]; the dictionary
      [Dict[int, Set[int]]] is a [gmap Z (gset Z)]; a [str] is a [string];
    - a Python exception is a value of [exn]; code that may raise lives in
      the monad [result];
    - the outcome of a [random.shuffle] call is made explicit: either as the
      arrangement of [range(n)] that the call produced, or through the
      interface [Random] of the global generator;
    - a Python [float] of the session record is idealised as the rational
      number it stands for ([Qc]); where the rounding of binary floating
      point matters, the percentage is computed again in binary64
      ([score_binary64]). *)

From stdpp Require Import gmap strings list fin_maps pretty.
From Stdlib Require Import Ascii QArith Qcanon Qround Lqa.

Local Open Scope Z_scope.

#[local] Set Warnings "-clear-no-such-hyp,-register-all".

(** ** Python run-time helpers *)

Module Py.

(** The exception classes that the modelled code can raise. Pydantic's
    [ValidationError] is a subclass of [ValueError]. *)
Inductive exn : Type :=
  | KeyError
  | ValueError
  | TypeError
  | AttributeError
  | IndexError.

#[global] Instance exn_eq_dec : EqDecision exn.
Proof. solve_decision. Defined.

Definition result (A : Type) : Type := exn + A.

Definition raise {A} (e : exn) : result A := inl e.

#[global] Instance result_ret : MRet result := λ A x, inr x.
#[global] Instance result_bind : MBind result := λ A B f m,
  match m with
  | inl e => inl e
  | inr x => f x
  end.

(** [range(n)] *)
Definition range (n : nat) : list Z := seqZ 0 (Z.of_nat n).

(** [enumerate(l)]: the pairs [(position, element)]. *)
Definition enumerate {A} (l : list A) : list (Z * A) :=
  zip (range (length l)) l.

(** [l[i]] on a list: a negative index counts from the end, and an index
    outside [-len(l) .. len(l)-1] raises [IndexError]. *)
Definition getitem {A} (l : list A) (i : Z) : result A :=
  let n := Z.of_nat (length l) in
  if bool_decide (0 ≤ i < n) then
    from_option inr (raise IndexError) (l !! Z.to_nat i)
  else if bool_decide (- n ≤ i < 0) then
    from_option inr (raise IndexError) (l !! Z.to_nat (n + i))
  else raise IndexError.

(** [d[k]] on a dictionary: a missing key raises [KeyError]. *)
Definition dict_getitem {V} (d : gmap Z V) (k : Z) : result V :=
  from_option inr (raise KeyError) (d !! k).

(** [d.get(k, default)] *)
Definition dict_get {V} (d : gmap Z V) (k : Z) (dflt : V) : V :=
  default dflt (d !! k).

(** A list comprehension [[f x for x in l]] whose body may raise: the first
    exception ends the evaluation. *)
Fixpoint for_list {A B} (f : A → result B) (l : list A) : result (list B) :=
  match l with
  | [] => mret []
  | x :: l' => y ← f x; ys ← for_list f l'; mret (y :: ys)
  end.

End Py.

Import Py.

(** ** Questions *)

Inductive Difficulty : Type := Reserve | Basic | Standard | Advanced.

Record Question : Type := mkQuestion {
  question : string;
  options : list string;
  correct_answers : gset Z;
  difficulty : Difficulty;
  original_options : option (list string);
  shuffle_mapping : option (list Z)
}.

(** Construction of a [Question] by Pydantic: the [Field] constraints on
    [question], [options] and [correct_answers], then the validator
    [validate_correct]. Any violation raises [ValidationError], a
    [ValueError]. *)
Definition validate_correct (v : gset Z) (options : list string)
    : result (gset Z) :=
  let max_opt := Z.of_nat (length options) in
  if bool_decide (set_Exists (λ i, i < 1 ∨ i > max_opt) v)
  then raise ValueError
  else mret v.

Definition Question_new (question : string) (options : list string)
    (correct_answers : gset Z) (difficulty : Difficulty) : result Question :=
  if negb (bool_decide (1 ≤ String.length question ≤ 2000)%nat)
  then raise ValueError
  else if negb (bool_decide (3 ≤ length options ≤ 6)%nat)
  then raise ValueError
  else if negb (bool_decide (1 ≤ size correct_answers)%nat)
  then raise ValueError
  else
    v ← validate_correct correct_answers options;
    mret {| question := question;
            options := options;
            correct_answers := v;
            difficulty := difficulty;
            original_options := None;
            shuffle_mapping := None |}.

(** The dictionary [{old_idx: new_idx for new_idx, old_idx in
    enumerate(indices)}]: a key met twice keeps the later position. *)
Definition old_to_new_of (indices : list Z) : gmap Z Z :=
  foldl (λ d '(new_idx, old_idx), <[old_idx := new_idx]> d) ∅
        (enumerate indices).

(** [Question.shuffle_options]. The argument [indices] is the content of
    the local list [indices] after [random.shuffle(indices)]: some
    arrangement of [range(len(self.options))]. An exception leaves the
    monad with the exception only (the loader drops the object then). *)
Definition shuffle_options (indices : list Z) (q : Question)
    : result Question :=
  let original :=
    match original_options q with
    | None => Some (options q)
    | Some o => Some o
    end in
  shuffled_options ← for_list (getitem (options q)) indices;
  let old_to_new := old_to_new_of indices in
  new_correct ←
    for_list (λ old_correct_idx,
                let old_zero_based := old_correct_idx - 1 in
                new_zero_based ← dict_getitem old_to_new old_zero_based;
                mret (new_zero_based + 1))
             (elements (correct_answers q));
  mret {| question := question q;
          options := shuffled_options;
          correct_answers := list_to_set new_correct;
          difficulty := difficulty q;
          original_options := original;
          shuffle_mapping := Some indices |}.

(** Several [shuffle_options] calls in a row, one drawn arrangement per
    call. *)
Fixpoint shuffle_many (draws : list (list Z)) (q : Question)
    : result Question :=
  match draws with
  | [] => mret q
  | indices :: rest => q' ← shuffle_options indices q; shuffle_many rest q'
  end.

(** The new 1-based position of the old 1-based position [c], read off
    the dictionary of [indices]. *)
Definition new_position (indices : list Z) (c : Z) : option Z :=
  (λ j, j + 1) <$> old_to_new_of indices !! (c - 1).

(** The question that a call leaves when no lookup fails. *)
Definition shuffled (indices : list Z) (q : Question) : Question :=
  {| question := question q;
     options := omap (λ i, options q !! Z.to_nat i) indices;
     correct_answers :=
       list_to_set (omap (new_position indices)
                         (elements (correct_answers q)));
     difficulty := difficulty q;
     original_options :=
       Some (default (options q) (original_options q));
     shuffle_mapping := Some indices |}.

(** What construction guarantees about the fields. *)
Record Question_valid (q : Question) : Prop := {
  valid_question : (1 ≤ String.length (question q) ≤ 2000)%nat;
  valid_options : (3 ≤ length (options q) ≤ 6)%nat;
  valid_nonempty : (1 ≤ size (correct_answers q))%nat;
  valid_correct :
    ∀ i, i ∈ correct_answers q → 1 ≤ i ≤ Z.of_nat (length (options q))
}.

(** The text shown at the 1-based position [c]. *)
Definition option_at (q : Question) (c : Z) : option string :=
  if bool_decide (1 ≤ c) then options q !! Z.to_nat (c - 1) else None.

(** The texts marked correct. *)
Definition correct_texts (q : Question) : gset string :=
  list_to_set (omap (option_at q) (elements (correct_answers q))).

(** ** Test sessions *)

(** A [float] of the source, idealised as a rational number. *)
Abbreviation float := Qc.

Definition grade_excellent : string := "отлично".
Definition grade_good : string := "хорошо".
Definition grade_satisfactory : string := "удовлетворительно".
Definition grade_unsatisfactory : string := "неудовлетворительно".

(** [CurrentTestState]. The identity strings, [timer_task] and
    [last_message_id] are carried along untouched by every method below
    and are left out. *)
Record CurrentTestState : Type := mkState {
  questions : list Question;
  current_index : Z;
  selected_answers : gset Z;
  answers_history : gmap Z (gset Z);
  start_time : float;
  correct_count : Z;
  total_questions : Z;
  percentage : float;
  grade : string;
  elapsed_time : string
}.

(** The validator of [current_index]. *)
Definition validate_index (v : Z) (questions : list Question) : result Z :=
  if negb (bool_decide (questions = []))
     && (bool_decide (v < 0) || bool_decide (Z.of_nat (length questions) ≤ v))
  then raise ValueError
  else mret v.

(** Construction of a session. Pydantic runs a field validator on a value
    that is passed in, not on a default: [current_index = None] is the call
    that leaves the field out, as the handlers do. [now] is the value of
    [time.time()] taken by the default factory of [start_time]. *)
Definition CurrentTestState_new (questions : list Question)
    (current_index : option Z) (now : float) : result CurrentTestState :=
  idx ← match current_index with
        | None => mret 0
        | Some v => validate_index v questions
        end;
  mret {| questions := questions;
          current_index := idx;
          selected_answers := ∅;
          answers_history := ∅;
          start_time := now;
          correct_count := 0;
          total_questions := 0;
          percentage := Qc_of_Z 0;
          grade := "";
          elapsed_time := "" |}.

(** Plain attribute assignments. The model configuration of the class is
    [{"arbitrary_types_allowed": True}]: [validate_assignment] is off, so
    an assignment stores the value without running the validator. *)
Definition set_current_index (v : Z) (s : CurrentTestState)
    : CurrentTestState :=
  {| questions := questions s;
     current_index := v;
     selected_answers := selected_answers s;
     answers_history := answers_history s;
     start_time := start_time s;
     correct_count := correct_count s;
     total_questions := total_questions s;
     percentage := percentage s;
     grade := grade s;
     elapsed_time := elapsed_time s |}.

Definition set_selected_answers (v : gset Z) (s : CurrentTestState)
    : CurrentTestState :=
  {| questions := questions s;
     current_index := current_index s;
     selected_answers := v;
     answers_history := answers_history s;
     start_time := start_time s;
     correct_count := correct_count s;
     total_questions := total_questions s;
     percentage := percentage s;
     grade := grade s;
     elapsed_time := elapsed_time s |}.

Definition set_answers_history (h : gmap Z (gset Z)) (s : CurrentTestState)
    : CurrentTestState :=
  {| questions := questions s;
     current_index := current_index s;
     selected_answers := selected_answers s;
     answers_history := h;
     start_time := start_time s;
     correct_count := correct_count s;
     total_questions := total_questions s;
     percentage := percentage s;
     grade := grade s;
     elapsed_time := elapsed_time s |}.

(** [save_answer]: the history receives a copy of the selection, so the
    stored set is a value of its own. *)
Definition save_answer (question_index : Z) (s : CurrentTestState)
    : CurrentTestState :=
  set_answers_history
    (<[question_index := selected_answers s]> (answers_history s)) s.

(** [load_answer] *)
Definition load_answer (question_index : Z) (s : CurrentTestState)
    : CurrentTestState :=
  match answers_history s !! question_index with
  | Some a => set_selected_answers a s
  | None => set_selected_answers ∅ s
  end.

(** The counting loop of [calculate_results]. *)
Definition count_correct (history : gmap Z (gset Z))
    (questions : list Question) : Z :=
  foldl (λ count '(idx, question),
           let user_answer := dict_get history idx ∅ in
           if bool_decide (user_answer = correct_answers question)
           then count + 1 else count)
        0 (enumerate questions).

Definition percentage_of (correct_count total_questions : Z) : float :=
  if bool_decide (total_questions > 0)
  then (Qc_of_Z correct_count / Qc_of_Z total_questions * Qc_of_Z 100)%Qc
  else Qc_of_Z 0.

Definition grade_of (percentage : float) : string :=
  if bool_decide (Qc_of_Z 90 ≤ percentage)%Qc then grade_excellent
  else if bool_decide (Qc_of_Z 75 ≤ percentage)%Qc then grade_good
  else if bool_decide (Qc_of_Z 60 ≤ percentage)%Qc then grade_satisfactory
  else grade_unsatisfactory.

(** [f"{n:02d}"] *)
Definition format_02d (n : Z) : string :=
  let digits := pretty (Z.abs n) in
  let padded := if bool_decide (n < 0) then "-" +:+ digits else digits in
  if bool_decide (String.length padded < 2)%nat
  then "0" +:+ padded else padded.

(** [int(x)] on a float: truncation towards zero. *)
Definition int_of_float (x : float) : Z :=
  if bool_decide (Qc_of_Z 0 ≤ x)%Qc then Qfloor x else Qceiling x.

Definition format_elapsed (elapsed : float) : string :=
  let whole := Qfloor (elapsed / Qc_of_Z 60)%Qc in
  let minutes := whole in
  let seconds := int_of_float (elapsed - Qc_of_Z (60 * whole))%Qc in
  format_02d minutes +:+ ":" +:+ format_02d seconds.

(** [calculate_results]; [now] is the value of [time.time()] read by the
    call. *)
Definition calculate_results (now : float) (s : CurrentTestState)
    : CurrentTestState :=
  let total := Z.of_nat (length (questions s)) in
  let count := count_correct (answers_history s) (questions s) in
  let pct := percentage_of count total in
  {| questions := questions s;
     current_index := current_index s;
     selected_answers := selected_answers s;
     answers_history := answers_history s;
     start_time := start_time s;
     correct_count := count;
     total_questions := total;
     percentage := pct;
     grade := grade_of pct;
     elapsed_time := format_elapsed (now - start_time s)%Qc |}.

(** The count as the specification words it: the number of indices in
    [0 .. len(questions)-1] whose history entry, or the empty set when
    there is none, equals the correct set of the question there. *)
Definition spec_correct_count (history : gmap Z (gset Z))
    (questions : list Question) : Z :=
  Z.of_nat (length (filter
    (λ idx, correct_answers <$> questions !! Z.to_nat idx
            = Some (default ∅ (history !! idx)))
    (range (length questions)))).

(** The operations a session goes through. *)
Inductive session_op : Type :=
  | OpAssignIndex (v : Z)
  | OpAssignSelected (v : gset Z)
  | OpSaveAnswer (question_index : Z)
  | OpLoadAnswer (question_index : Z)
  | OpCalculateResults (now : float).

Definition run_op (op : session_op) (s : CurrentTestState)
    : CurrentTestState :=
  match op with
  | OpAssignIndex v => set_current_index v s
  | OpAssignSelected v => set_selected_answers v s
  | OpSaveAnswer i => save_answer i s
  | OpLoadAnswer i => load_answer i s
  | OpCalculateResults now => calculate_results now s
  end.

Definition run_ops (ops : list session_op) (s : CurrentTestState)
    : CurrentTestState :=
  foldl (λ st op, run_op op st) s ops.

(** An operation that writes the history entry of index [i]. *)
Definition writes_history (i : Z) (op : session_op) : Prop :=
  match op with
  | OpSaveAnswer j => j = i
  | _ => False
  end.

(** An operation that keeps to the range when it assigns the index of a
    session of [n] questions. *)
Definition assigns_in_range (n : nat) (op : session_op) : Prop :=
  match op with
  | OpAssignIndex v => 0 ≤ v < Z.of_nat n
  | _ => True
  end.

Definition index_in_range (s : CurrentTestState) : Prop :=
  0 ≤ current_index s < Z.of_nat (length (questions s)).

(** ** Strings of the loader

    A [str] is a sequence of code points; the model covers the code points
    below 256, one [ascii] each. *)

Module Str.

Definition code (c : ascii) : N := N_of_ascii c.

(** [c.isspace()] *)
Definition isspace (c : ascii) : bool :=
  let n := code c in
  bool_decide (9 ≤ n ≤ 13)%N || bool_decide (28 ≤ n ≤ 32)%N
  || bool_decide (n = 133)%N || bool_decide (n = 160)%N.

(** [c.isdecimal()]: the digits [0] to [9]. *)
Definition isdecimal (c : ascii) : bool :=
  let n := code c in bool_decide (48 ≤ n ≤ 57)%N.

(** [c.isdigit()]: the decimal digits and the superscripts two, three and
    one. *)
Definition isdigit_char (c : ascii) : bool :=
  let n := code c in
  isdecimal c || bool_decide (n = 178)%N || bool_decide (n = 179)%N
  || bool_decide (n = 185)%N.

Definition chars (s : string) : list ascii := String.list_ascii_of_string s.

(** [s.isdigit()]: at least one character, and every one a digit. *)
Definition isdigit (s : string) : bool :=
  negb (bool_decide (chars s = [])) && forallb isdigit_char (chars s).

Fixpoint lstrip_chars (l : list ascii) : list ascii :=
  match l with
  | c :: l' => if isspace c then lstrip_chars l' else l
  | [] => []
  end.

(** [s.strip()] *)
Definition strip (s : string) : string :=
  String.string_of_list_ascii
    (rev (lstrip_chars (rev (lstrip_chars (chars s))))).

(** [s.split(sep)] for a separator of one character. *)
Fixpoint split (sep : ascii) (s : string) : list string :=
  match s with
  | EmptyString => [EmptyString]
  | String c s' =>
      if bool_decide (c = sep) then EmptyString :: split sep s'
      else match split sep s' with
           | [] => [String c EmptyString]
           | t :: ts => String c t :: ts
           end
  end.

Definition digit_value (c : ascii) : Z := Z.of_N (code c) - 48.

Definition decimal_value (l : list ascii) : Z :=
  foldl (λ acc c, 10 * acc + digit_value c) 0 l.

(** The default of [sys.get_int_max_str_digits()]. *)
Definition max_str_digits : nat := 4300.

(** [int(s)] for a string that passed [isdigit()]: a superscript digit is
    not a decimal digit, and a literal longer than the conversion limit is
    refused; both raise [ValueError]. *)
Definition int (s : string) : result Z :=
  if negb (forallb isdecimal (chars s)) then raise ValueError
  else if bool_decide (max_str_digits < length (chars s))%nat
  then raise ValueError
  else mret (decimal_value (chars s)).

End Str.

(** ** The question-bank loader *)

(** A value decoded by [json.load]. *)
Inductive json : Type :=
  | JNull
  | JBool (b : bool)
  | JInt (n : Z)
  | JFloat (x : float)
  | JStr (s : string)
  | JArr (l : list json)
  | JObj (d : gmap string json).

(** [item.get(key, default)]: only a [dict] has the method. *)
Definition json_get (item : json) (key : string) (dflt : json)
    : result json :=
  match item with
  | JObj d => mret (default dflt (d !! key))
  | _ => raise AttributeError
  end.

(** [item[key]] on a [dict]. *)
Definition json_getitem (d : gmap string json) (key : string)
    : result json :=
  from_option inr (raise KeyError) (d !! key).

(** [correct_str.split(",")]: only a [str] has the method. *)
Definition json_split (v : json) : result (list string) :=
  match v with
  | JStr s => mret (Str.split "," s)
  | _ => raise AttributeError
  end.

(** Pydantic's check of a [str] field. *)
Definition json_str (v : json) : result string :=
  match v with
  | JStr s => mret s
  | _ => raise ValueError
  end.

(** The loop that fills the set [correct]. *)
Fixpoint collect_correct (tokens : list string) (correct : gset Z)
    : result (gset Z) :=
  match tokens with
  | [] => mret correct
  | x :: rest =>
      let x := Str.strip x in
      if Str.isdigit x
      then n ← Str.int x; collect_correct rest ({[n]} ∪ correct)
      else collect_correct rest correct
  end.

Definition parse_correct_answers (v : json) : result (gset Z) :=
  tokens ← json_split v;
  collect_correct tokens ∅.

(** The body of the [try] block up to the construction of the question;
    [None] is the [continue] of a record that is passed over. *)
Definition parse_item (difficulty : Difficulty) (item : json)
    : result (option Question) :=
  opts ← json_get item "options" (JArr []);
  match opts with
  | JArr opts =>
      if bool_decide (length opts < 3)%nat then mret None
      else
        correct_str ← json_get item "correct_answers" (JStr "");
        correct ← parse_correct_answers correct_str;
        if bool_decide (correct = ∅) then mret None
        else
          d ← match item with
              | JObj d => mret d
              | _ => raise AttributeError
              end;
          text ← json_getitem d "question";
          text ← json_str text;
          options ← for_list json_str opts;
          q ← Question_new text options correct difficulty;
          mret (Some q)
  | _ => mret None
  end.

(** The exceptions named by the [except] clause. *)
Definition caught (e : exn) : bool :=
  match e with
  | KeyError | ValueError | TypeError => true
  | AttributeError | IndexError => false
  end.

(** The global generator of the [random] module, as far as the code uses
    it: [seed a] is the state after [random.seed(a)]; a [random.shuffle]
    call on a list of [n] elements in state [g] puts the element of
    position [i] of [draw g n] at each place, and leaves the state
    [advance g n]. *)
Class Random : Type := {
  rng : Type;
  seed : Z → rng;
  draw : rng → nat → list Z;
  advance : rng → nat → rng;
  draw_perm : ∀ g n, draw g n ≡ₚ range n
}.

(** [random.shuffle(l)] given the arrangement it draws. *)
Definition reorder {A} (arrangement : list Z) (l : list A) : list A :=
  omap (λ i, l !! Z.to_nat i) arrangement.

(** What one record does to the loop. *)
Inductive outcome : Type :=
  | Loaded (q : Question)
  | Skipped
  | Aborted (e : exn).

Definition handle {A} (r : result A) (k : A → outcome) : outcome :=
  match r with
  | inr x => k x
  | inl e => if caught e then Skipped else Aborted e
  end.

Section Loader.
Context `{Random}.

(** One iteration of the parsing loop: the outcome and the generator
    state after it. *)
Definition process_item (difficulty : Difficulty) (item : json) (g : rng)
    : outcome * rng :=
  match parse_item difficulty item with
  | inr (Some q) =>
      let n := length (options q) in
      (handle (shuffle_options (draw g n) q) Loaded, advance g n)
  | inr None => (Skipped, g)
  | inl e => (handle (inl e) Loaded, g)
  end.

Fixpoint parse_loop (difficulty : Difficulty) (raw_data : list json)
    (g : rng) (questions : list Question) : result (list Question * rng) :=
  match raw_data with
  | [] => mret (questions, g)
  | item :: rest =>
      match process_item difficulty item g with
      | (Loaded q, g') => parse_loop difficulty rest g' (questions ++ [q])
      | (Skipped, g') => parse_loop difficulty rest g' questions
      | (Aborted e, _) => raise e
      end
  end.

(** [questions[:target_count]] *)
Definition slice_to {A} (l : list A) (stop : Z) : list A :=
  if bool_decide (0 ≤ stop) then take (Z.to_nat stop) l
  else take (Z.to_nat (Z.of_nat (length l) + stop)) l.

(** The generator state in which [random.shuffle(questions)] runs. *)
Definition ordering_state (user_id : option Z) (g : rng) : rng :=
  match user_id with
  | Some uid => if bool_decide (uid ≠ 0) then seed uid else g
  | None => g
  end.

(** The arrangement applied to the surviving questions. *)
Definition ordering (user_id : option Z) (g : rng) (n : nat) : list Z :=
  draw (ordering_state user_id g) n.

(** The part of the function after the parsing loop. *)
Definition select_questions (target_count : Z) (user_id : option Z)
    (g : rng) (questions : list Question) : list Question :=
  match questions with
  | [] => []
  | _ =>
      let questions :=
        reorder (ordering user_id g (length questions)) questions in
      if bool_decide (Z.of_nat (length questions) < target_count)
      then questions
      else slice_to questions target_count
  end.

(** [load_questions_for_specialization] from the decoded file on.
    [difficulty_questions] is the table [settings.difficulty_questions];
    [g] is the state of the generator at the call. The generator is
    reseeded from the system at the end, so the state it is left in is not
    a function of the arguments and is not returned. *)
Definition load_questions (difficulty_questions : Difficulty → option Z)
    (raw_data : json) (difficulty : Difficulty) (user_id : option Z)
    (g : rng) : result (list Question) :=
  match raw_data with
  | JArr raw_data =>
      '(questions, g') ← parse_loop difficulty raw_data g [];
      let target_count := default 30 (difficulty_questions difficulty) in
      mret (select_questions target_count user_id g' questions)
  | _ => mret []
  end.

End Loader.

(** Two questions made from the same record: the same text, difficulty
    and original options. *)
Definition same_record (q1 q2 : Question) : Prop :=
  question q1 = question q2 ∧ difficulty q1 = difficulty q2
  ∧ original_options q1 = original_options q2.

(** The token as the specification words it: it counts when it reads as a
    positive integer. *)
Definition spec_positive_token (x : string) : option Z :=
  if negb (bool_decide (Str.chars x = []))
     && forallb Str.isdecimal (Str.chars x)
     && bool_decide (0 < Str.decimal_value (Str.chars x))
  then Some (Str.decimal_value (Str.chars x))
  else None.

Definition spec_correct_set (correct_str : string) : gset Z :=
  list_to_set (omap (λ x, spec_positive_token (Str.strip x))
                    (Str.split "," correct_str)).

(** The skip condition as the specification words it. *)
Definition spec_skip (options : list json) (correct_str : string) : Prop :=
  spec_correct_set correct_str = ∅
  ∨ (length options < 3)%nat
  ∨ ∃ i, i ∈ spec_correct_set correct_str
         ∧ ¬ (1 ≤ i ≤ Z.of_nat (length options)).

(** The parts of a record that decide whether the loop keeps it. *)

(** The trimmed tokens made of digits only. *)
Definition digit_tokens (correct_str : string) : list string :=
  filter (λ x, Str.isdigit x = true)
         (Str.strip <$> Str.split "," correct_str).

(** A digit token that [int] accepts. *)
Definition token_converts (x : string) : bool :=
  forallb Str.isdecimal (Str.chars x)
  && negb (bool_decide (Str.max_str_digits < length (Str.chars x))%nat).

Definition token_value (x : string) : Z := Str.decimal_value (Str.chars x).

(** The values of the digit tokens, zero included. *)
Definition digit_token_values (correct_str : string) : gset Z :=
  list_to_set (token_value <$> digit_tokens correct_str).

(** The entries of the option list; none when the field is missing or is
    not a list. *)
Definition record_options (fields : gmap string json) : list json :=
  match default (JArr []) (fields !! "options") with
  | JArr l => l
  | _ => []
  end.

Definition json_text (v : json) : option string :=
  match v with JStr s => Some s | _ => None end.

Definition is_str (v : json) : bool :=
  match v with JStr _ => true | _ => false end.

(** The text of the question is there and passes its length check. *)
Definition question_ok (fields : gmap string json) : bool :=
  match fields !! "question" with
  | Some (JStr text) => bool_decide (1 ≤ String.length text ≤ 2000)%nat
  | _ => false
  end.

(** All the checks that a record has to pass to enter the bank. *)
Definition loadable (fields : gmap string json) (correct_str : string)
    : bool :=
  let opts := record_options fields in
  let values := digit_token_values correct_str in
  negb (bool_decide (length opts < 3)%nat)
  && forallb token_converts (digit_tokens correct_str)
  && negb (bool_decide (values = ∅))
  && question_ok fields
  && forallb is_str opts
  && bool_decide (length opts ≤ 6)%nat
  && bool_decide (set_Forall (λ i, 1 ≤ i ≤ Z.of_nat (length opts)) values).

(** When the code passes over a record whose correct-answer field is the
    string [correct_str]: the three conditions of the specification, read
    with the set that the code builds, and the further checks of the
    construction. *)
Definition code_skip (fields : gmap string json) (correct_str : string)
    : Prop :=
  let opts := record_options fields in
  digit_token_values correct_str = ∅
  ∨ (length opts < 3)%nat
  ∨ (∃ i, i ∈ digit_token_values correct_str
          ∧ ¬ (1 ≤ i ≤ Z.of_nat (length opts)))
  ∨ (6 < length opts)%nat
  ∨ forallb is_str opts = false
  ∨ question_ok fields = false
  ∨ forallb token_converts (digit_tokens correct_str) = false.

(** ** Sample data *)

Definition sample_question : Question :=
  {| question := "Q";
     options := ["A"; "B"; "C"; "D"];
     correct_answers := {[1; 3]};
     difficulty := Basic;
     original_options := None;
     shuffle_mapping := None |}.

Definition sample_questions : list Question :=
  [sample_question; sample_question; sample_question].

Definition sample_session : CurrentTestState :=
  {| questions := sample_questions;
     current_index := 0;
     selected_answers := {[1; 3]};
     answers_history := {[0 := {[1; 3]}; 1 := {[2]}]};
     start_time := Qc_of_Z 0;
     correct_count := 0;
     total_questions := 0;
     percentage := Qc_of_Z 0;
     grade := "";
     elapsed_time := "" |}.

(** The scenario of the specification: three questions with four options
    each, correct answers [{2}], [{1,3}] and [{4}], answered [{2}],
    [{1,3}] and [{1}]. *)
Definition scenario_question (correct : gset Z) : Question :=
  {| question := "Q";
     options := ["A"; "B"; "C"; "D"];
     correct_answers := correct;
     difficulty := Basic;
     original_options := None;
     shuffle_mapping := None |}.

Definition scenario_session : CurrentTestState :=
  {| questions := [scenario_question {[2]}; scenario_question {[1; 3]};
                   scenario_question {[4]}];
     current_index := 2;
     selected_answers := {[1]};
     answers_history := {[0 := {[2]}; 1 := {[1; 3]}; 2 := {[1]}]};
     start_time := Qc_of_Z 0;
     correct_count := 0;
     total_questions := 0;
     percentage := Qc_of_Z 0;
     grade := "";
     elapsed_time := "" |}.

Definition sample_new_session : CurrentTestState :=
  {| questions := sample_questions;
     current_index := 0;
     selected_answers := ∅;
     answers_history := ∅;
     start_time := Qc_of_Z 0;
     correct_count := 0;
     total_questions := 0;
     percentage := Qc_of_Z 0;
     grade := "";
     elapsed_time := "" |}.

Definition sample_ops : list session_op :=
  [OpAssignSelected {[1; 3]}; OpSaveAnswer 0; OpAssignIndex 1;
   OpLoadAnswer 1; OpCalculateResults (Qc_of_Z 5)].

(** A generator for the examples: the state is an integer, a shuffle
    rotates by it, and each call moves the state on by one. *)
Definition rotation_draw (g : Z) (n : nat) : list Z :=
  rotate (Z.to_nat (Z.abs g)) (range n).

Definition rotation_random : Random.
Proof.
  refine {| rng := Z;
            seed := λ a, a;
            draw := rotation_draw;
            advance := λ g _, g + 1 |}.
  intros g n. unfold rotation_draw, rotate.
  by rewrite Permutation_app_comm, take_drop.
Defined.

Definition sample_record (text correct : string) (opts : list string)
    : json :=
  JObj (list_to_map [("question", JStr text);
                     ("options", JArr (JStr <$> opts));
                     ("correct_answers", JStr correct)]).

Definition sample_fields : gmap string json :=
  list_to_map [("question", JStr "Q1");
               ("options", JArr [JStr "A"; JStr "B"; JStr "C"]);
               ("correct_answers", JStr "0,1")].

Definition sample_bank : list json :=
  [sample_record "Q1" "1,3" ["A"; "B"; "C"];
   sample_record "Q2" "1" ["A"; "B"];
   sample_record "Q3" "0,1" ["A"; "B"; "C"];
   sample_record "Q4" "2" ["A"; "B"; "C"; "D"];
   sample_record "Q5" "x" ["A"; "B"; "C"]].

Definition seven_options_fields : gmap string json :=
  list_to_map
    [("question", JStr "Q7");
     ("options", JArr (JStr <$> ["A"; "B"; "C"; "D"; "E"; "F"; "G"]));
     ("correct_answers", JStr "1")].

Definition integer_field_record : json :=
  JObj (list_to_map [("question", JStr "Q8");
                     ("options", JArr (JStr <$> ["A"; "B"; "C"]));
                     ("correct_answers", JInt 2)]).

(** The bank of the specification: five valid records, one with two
    options and one whose correct-answer field does not parse. *)
Definition scenario_bank : list json :=
  [sample_record "Q1" "1,3" ["A"; "B"; "C"];
   sample_record "Q2" "2" ["A"; "B"; "C"; "D"];
   sample_record "short" "1" ["A"; "B"];
   sample_record "Q3" " 3 " ["A"; "B"; "C"];
   sample_record "unparsable" "a;b" ["A"; "B"; "C"];
   sample_record "Q4" "1,2,4" ["A"; "B"; "C"; "D"; "E"];
   sample_record "Q5" "6" ["A"; "B"; "C"; "D"; "E"; "F"]].

(** ** Further definitions *)

From stdpp Require Import sorting.

Local Open Scope Z_scope.

(** The order of the four grades, lowest first. *)
Definition grade_rank (g : string) : nat :=
  if bool_decide (g = grade_excellent) then 3
  else if bool_decide (g = grade_good) then 2
  else if bool_decide (g = grade_satisfactory) then 1
  else 0.

(** Two sessions that agree on everything [calculate_results] reads. *)
Definition same_inputs (s1 s2 : CurrentTestState) : Prop :=
  questions s1 = questions s2
  ∧ current_index s1 = current_index s2
  ∧ selected_answers s1 = selected_answers s2
  ∧ answers_history s1 = answers_history s2
  ∧ start_time s1 = start_time s2.

(** The indices that a run of operations saves an answer for. *)
Definition saved_indices (ops : list session_op) : gset Z :=
  list_to_set
    (omap (λ op, match op with OpSaveAnswer i => Some i | _ => None end)
          ops).

(** A record that ends the whole load: it is not an object, or it has a
    list of at least 3 options and a correct-answer field that is not a
    string. *)
Definition record_aborts (item : json) : bool :=
  match item with
  | JObj fields =>
      negb (bool_decide (length (record_options fields) < 3)%nat)
      && negb (is_str (default (JStr "") (fields !! "correct_answers")))
  | _ => true
  end.

(** A record that enters the bank. *)
Definition record_loads (item : json) : bool :=
  match item with
  | JObj fields =>
      match default (JStr "") (fields !! "correct_answers") with
      | JStr correct_str => loadable fields correct_str
      | _ => false
      end
  | _ => false
  end.

(** The number of questions that the loader returns when [n] records
    enter the bank. *)
Definition selected_length (target_count : Z) (n : nat) : nat :=
  if bool_decide (Z.of_nat n < target_count) then n
  else if bool_decide (0 ≤ target_count) then Z.to_nat target_count
  else Z.to_nat (Z.of_nat n + target_count).

(** What the loader guarantees about each question it returns. *)
Definition freshly_shuffled (d : Difficulty) (q : Question) : Prop :=
  Question_valid q
  ∧ difficulty q = d
  ∧ ∃ original mapping,
      original_options q = Some original
      ∧ shuffle_mapping q = Some mapping
      ∧ mapping ≡ₚ range (length original)
      ∧ options q = reorder mapping original.

(** ** The review of the answers ([show_correct_answers])

    The text that the handler builds and sends; the sending itself and
    the timer that deletes the message are left out. *)

(** [enumerate(l, start)] *)
Definition enumerate_from {A} (start : Z) (l : list A) : list (Z * A) :=
  zip (seqZ start (Z.of_nat (length l))) l.

(** [sep.join(l)] *)
Definition join (sep : string) (l : list string) : string :=
  match l with
  | [] => ""
  | x :: rest => foldl (λ acc y, acc +:+ sep +:+ y) x rest
  end.

Definition newline : string := String "010"%char "".

(** The comparison of one pass of the loop; [i] counts from 1. *)
Definition review_is_correct (history : gmap Z (gset Z)) (i : Z)
    (question : Question) : bool :=
  let user_answer := dict_get history (i - 1) ∅ in
  let correct := correct_answers question in
  bool_decide (user_answer = correct).

(** The line that one pass of the loop appends. *)
Definition review_line (history : gmap Z (gset Z)) (i : Z)
    (question : Question) : string :=
  let is_correct := review_is_correct history i question in
  let emoji := if is_correct then "✅" else "❌" in
  let correct_nums :=
    join ", " (pretty <$> merge_sort Z.le
                            (elements (correct_answers question))) in
  emoji +:+ " <b>Вопрос " +:+ pretty i +:+ ":</b> " +:+ correct_nums
        +:+ newline.

Definition show_correct_answers_text (test_state : CurrentTestState)
    : string :=
  let answers_text :=
    foldl (λ text '(i, question),
             text +:+ review_line (answers_history test_state) i question)
          ("📋 <b>Правильные ответы:</b>" +:+ newline +:+ newline)
          (enumerate_from 1 (questions test_state)) in
  answers_text +:+ newline
    +:+ "⏱ <i>Это сообщение будет удалено через 60 секунд</i>".

(** ** The files of a bank ([load_questions_for_specialization])

    A path is the list of its components below [settings.questions_dir];
    the specialization is one component. [Files] is what the function
    asks of the file system: what [Path.exists()] gives for a path, and
    what opening it and decoding its content gives. *)

(** [Path.exists()] answers [False] for a path that is not there, and
    re-raises every other failure of the underlying [stat] call: a
    directory that may not be searched gives [PermissionError], other
    failures give further subclasses of [OSError]. With a [pathlib]
    whose [exists()] swallows every [OSError], no check ever raises. *)
Inductive stat_error : Type :=
  | StatPermissionError
  | StatOSError.

Inductive file_error : Type :=
  | JSONDecodeError
  | PermissionError
  | OtherFileError.

Inductive file_outcome : Type :=
  | FileJSON (raw_data : json)
  | FileRaises (e : file_error).

Record Files : Type := {
  path_exists : list string → stat_error + bool;
  path_load : list string → file_outcome
}.

(** What leaves the function as an exception: one raised by an
    existence check, which stands outside the [try]; one raised while
    the file is read; or one raised while the records are processed. *)
Inductive load_failure : Type :=
  | ExistsFailure (e : stat_error)
  | FileFailure (e : file_error)
  | RecordFailure (e : exn).

Definition difficulty_map : gmap string string :=
  {[ "резерв" := "reserve";
     "базовый" := "basic";
     "стандартный" := "standard";
     "продвинутый" := "advanced" ]}.

Definition nested_path (specialization difficulty_name : string)
    : list string :=
  [specialization; difficulty_name +:+ ".json"].

Definition flat_with_suffix (specialization difficulty_name : string)
    : list string :=
  [specialization +:+ "_" +:+ difficulty_name +:+ ".json"].

Definition general_path (specialization : string) : list string :=
  [specialization +:+ ".json"].

(** The [if] / [elif] chain that selects the path: the checks run in
    order, a check that raises ends the call, and the first path that
    exists is read; [None] when none of the three exists. *)
Definition chosen_path (files : Files) (specialization : string)
    (difficulty_name : string) : stat_error + option (list string) :=
  match path_exists files (nested_path specialization difficulty_name) with
  | inl e => inl e
  | inr true => inr (Some (nested_path specialization difficulty_name))
  | inr false =>
      match path_exists files
              (flat_with_suffix specialization difficulty_name) with
      | inl e => inl e
      | inr true =>
          inr (Some (flat_with_suffix specialization difficulty_name))
      | inr false =>
          match path_exists files (general_path specialization) with
          | inl e => inl e
          | inr true => inr (Some (general_path specialization))
          | inr false => inr None
          end
      end
  end.

(** The whole function. [difficulty_value] gives the [value] of a member
    of the enumeration [Difficulty], and [difficulty_questions] is the
    table of the settings, keyed by that value. *)
Definition load_questions_for_specialization `{Random} (files : Files)
    (difficulty_value : Difficulty → string)
    (difficulty_questions : gmap string Z)
    (specialization : string) (difficulty : Difficulty)
    (user_id : option Z) (g : rng) : load_failure + list Question :=
  let difficulty_name :=
    default "basic" (difficulty_map !! difficulty_value difficulty) in
  match chosen_path files specialization difficulty_name with
  | inl e => inl (ExistsFailure e)
  | inr None => inr []
  | inr (Some json_path) =>
      match path_load files json_path with
      | FileRaises JSONDecodeError | FileRaises PermissionError => inr []
      | FileRaises e => inl (FileFailure e)
      | FileJSON raw_data =>
          match load_questions
                  (λ d, difficulty_questions !! difficulty_value d)
                  raw_data difficulty user_id g with
          | inl e => inl (RecordFailure e)
          | inr selected => inr selected
          end
      end
  end.

(** A file system for the examples: only the general file of
    ["upravlenie"] exists, and it holds the sample bank. *)
Definition sample_files : Files :=
  {| path_exists := λ p, inr (bool_decide (p = ["upravlenie.json"]));
     path_load := λ p, if bool_decide (p = ["upravlenie.json"])
                       then FileJSON (JArr sample_bank)
                       else FileRaises OtherFileError |}.

(** A file system in which the directory of the specialization may not
    be searched: the first existence check raises. *)
Definition locked_files : Files :=
  {| path_exists := λ p, match p with
                         | [_; _] => inl StatPermissionError
                         | _ => inr false
                         end;
     path_load := λ _, FileRaises PermissionError |}.

Definition sample_difficulty_value (d : Difficulty) : string :=
  match d with
  | Reserve => "резерв"
  | Basic => "базовый"
  | Standard => "стандартный"
  | Advanced => "продвинутый"
  end.

(** ** The index of a session along a run *)

(** The index after a run that starts at [start]: the value of the last
    assignment to [current_index], or [start] when there is none. *)
Definition final_index (ops : list session_op) (start : Z) : Z :=
  foldl (λ idx op, match op with OpAssignIndex v => v | _ => idx end)
        start ops.

(** ** The percentage in binary64

    [float] above reads the arithmetic of [calculate_results] in the
    rationals. The code computes in Python floats: [a / b] on two
    integers is the quotient rounded to the nearest binary64 value, and
    [x * 100] is the product of [x] and [100.0] rounded again. The
    definitions below follow the code in that arithmetic. *)

From Stdlib Require Import Floats.SpecFloat Qabs.

Local Open Scope Z_scope.

Module Float64.

Definition prec : Z := 53.
Definition emax : Z := 1024.

Inductive raised : Type := ZeroDivisionError.

(** An integer as an operand of a float operation, rounded to the
    nearest value. Python raises [OverflowError] for an integer beyond
    the range of binary64; the code converts the constants 100, 90, 75
    and 60 only. *)
Definition of_int (n : Z) : spec_float :=
  binary_normalize prec emax n 0 false.

(** The integer [n] as an exact numerator or denominator. *)
Definition int_operand (n : Z) : spec_float :=
  match n with
  | 0 => S754_zero false
  | Z.pos p => S754_finite false p 0
  | Z.neg p => S754_finite true p 0
  end.

(** [a / b] on two integers: the exact quotient rounded once, whatever
    the size of the operands. Python raises [OverflowError] when the
    quotient is beyond the range of binary64, which a count divided by a
    larger total never is. *)
Definition int_truediv (a b : Z) : raised + spec_float :=
  if bool_decide (b = 0) then inl ZeroDivisionError
  else inr (SFdiv prec emax (int_operand a) (int_operand b)).

(** [x * n] for a float [x] and an integer [n]. *)
Definition mul_int (x : spec_float) (n : Z) : spec_float :=
  SFmul prec emax x (of_int n).

(** [x >= n] for a float [x] and an integer [n]. *)
Definition ge_int (x : spec_float) (n : Z) : bool :=
  SFleb (of_int n) x.

(** The number that a finite float stands for. *)
Definition value (x : spec_float) : Q :=
  match x with
  | S754_finite s m e =>
      (inject_Z (if s then Z.neg m else Z.pos m) * (2 # 1) ^ e)%Q
  | _ => 0%Q
  end.

End Float64.

(** The four fields that the first part of [calculate_results] sets. *)
Record Score64 : Type := {
  score_total_questions : Z;
  score_correct_count : Z;
  score_percentage : spec_float;
  score_grade : string
}.

(** [(self.correct_count / self.total_questions) * 100] behind its
    guard, and [0.0] otherwise. *)
Definition percentage_binary64 (correct_count total_questions : Z)
    : Float64.raised + spec_float :=
  if bool_decide (total_questions > 0) then
    match Float64.int_truediv correct_count total_questions with
    | inl e => inl e
    | inr ratio => inr (Float64.mul_int ratio 100)
    end
  else inr (S754_zero false).

Definition grade_binary64 (percentage : spec_float) : string :=
  if Float64.ge_int percentage 90 then grade_excellent
  else if Float64.ge_int percentage 75 then grade_good
  else if Float64.ge_int percentage 60 then grade_satisfactory
  else grade_unsatisfactory.

(** [calculate_results] up to the grade, in binary64. *)
Definition score_binary64 (s : CurrentTestState)
    : Float64.raised + Score64 :=
  let total_questions := Z.of_nat (length (questions s)) in
  let correct_count := count_correct (answers_history s) (questions s) in
  match percentage_binary64 correct_count total_questions with
  | inl e => inl e
  | inr percentage =>
      inr {| score_total_questions := total_questions;
             score_correct_count := correct_count;
             score_percentage := percentage;
             score_grade := grade_binary64 percentage |}
  end.

(** The binary64 percentage of [correct_count] out of [total_questions]
    is within [2^-46] of the rational one and gives the same grade. *)
Definition binary64_agrees (correct_count total_questions : Z) : bool :=
  match percentage_binary64 correct_count total_questions with
  | inr p =>
      bool_decide (grade_binary64 p
                   = grade_of (percentage_of correct_count total_questions))
      && Qle_bool
           (Qabs (Float64.value p
                  - percentage_of correct_count total_questions))
           (1 # 70368744177664)
  | inl _ => false
  end.

(** The pairs of a count and a total with [count ≤ total ≤ bound]. *)
Definition score_grid (bound : nat) : list (Z * Z) :=
  t ← seq 0 (S bound); c ← seq 0 (S t); [(Z.of_nat c, Z.of_nat t)].

(** ** The provenance of a loaded question *)

(** The question that the constructor gives for a record that passes
    every check. *)
Definition record_question (d : Difficulty) (fields : gmap string json)
    (correct_str text : string) : Question :=
  {| question := text;
     options := omap json_text (record_options fields);
     correct_answers := digit_token_values correct_str;
     difficulty := d;
     original_options := None;
     shuffle_mapping := None |}.

Section Provenance.
Context `{Random}.

(** [q] comes from one record of [records] by one [shuffle_options]
    call: the record is an object whose fields give the question that
    the constructor builds, the arrangement is the one drawn in the
    state that the loop has reached after the records before it, and
    [q] is what the call leaves. *)
Definition loaded_from (d : Difficulty) (records : list json) (g : rng)
    (q : Question) : Prop :=
  ∃ (before : list json) (fields : gmap string json) (after : list json)
    (correct_str text : string) (kept : list Question) (g0 : rng),
    records = before ++ JObj fields :: after
    ∧ fields !! "question" = Some (JStr text)
    ∧ default (JStr "") (fields !! "correct_answers") = JStr correct_str
    ∧ parse_loop d before g [] = inr (kept, g0)
    ∧ let q0 := record_question d fields correct_str text in
      let arrangement := draw g0 (length (options q0)) in
      parse_item d (JObj fields) = inr (Some q0)
      ∧ shuffle_options arrangement q0 = inr q
      ∧ question q = text
      ∧ difficulty q = d
      ∧ original_options q = Some (omap json_text (record_options fields))
      ∧ shuffle_mapping q = Some arrangement
      ∧ options q
        = reorder arrangement (omap json_text (record_options fields))
      ∧ correct_answers q
        = list_to_set
            (omap (new_position arrangement)
                  (elements (digit_token_values correct_str)))
      ∧ Question_valid q.

End Provenance.

(** ** The lines of the review *)

(** The lines that the loop of [show_correct_answers] appends, in
    order. *)
Definition review_lines (test_state : CurrentTestState) : list string :=
  (λ '(i, question), review_line (answers_history test_state) i question)
    <$> enumerate_from 1 (questions test_state).

Definition concat_strings (l : list string) : string :=
  foldr String.append "" l.

Definition review_header : string :=
  "📋 <b>Правильные ответы:</b>" +:+ newline +:+ newline.

Definition review_footer : string :=
  newline +:+ "⏱ <i>Это сообщение будет удалено через 60 секунд</i>".

(** The line starts with the mark. *)
Definition starts_with (mark line : string) : bool :=
  String.prefix mark line.

(** * Properties *)

(** ** The run-time helpers *)

Section PyFacts.
Context {A B : Type}.
Implicit Types (f : A → result B) (l : list A).

Lemma for_list_inr f l ys :
  for_list f l = inr ys ↔ Forall2 (λ x y, f x = inr y) l ys.
Proof.
  revert ys. induction l as [|x l IH]; intros ys; simpl.
  - split.
    + intros [= <-]. constructor.
    + by inversion 1.
  - destruct (f x) as [e|y] eqn:Hx; simpl.
    + split; [done|]. inversion 1; congruence.
    + destruct (for_list f l) as [e|ys'] eqn:Hl; simpl.
      * split; [done|]. inversion 1; subst.
        assert (inl e = inr l') as Hbad by (by apply IH). done.
      * split.
        -- intros [= <-]. constructor; [done|]. by apply IH.
        -- inversion 1; subst. f_equal.
           assert (y = y0) as -> by congruence.
           f_equal. assert (inr ys' = inr l') by (by apply IH). congruence.
Qed.

Lemma for_list_total f l :
  Forall (λ x, ∃ y, f x = inr y) l → ∃ ys, for_list f l = inr ys.
Proof.
  induction 1 as [|x l [y Hy] _ [ys Hys]]; simpl.
  - by eexists.
  - rewrite Hy; simpl. rewrite Hys; simpl. by eexists.
Qed.

Lemma for_list_pure (g : A → option B) f l :
  Forall (λ x, ∃ y, g x = Some y ∧ f x = inr y) l →
  for_list f l = inr (omap g l).
Proof.
  induction 1 as [|x l (y & Hg & Hf) _ IH]; csimpl; [done|].
  by rewrite Hf, Hg; csimpl; rewrite IH.
Qed.

End PyFacts.

Lemma length_range n : length (range n) = n.
Proof. unfold range. rewrite length_seqZ. lia. Qed.

Lemma lookup_range n (i : nat) :
  (i < n)%nat → range n !! i = Some (Z.of_nat i).
Proof. intros. unfold range. rewrite lookup_seqZ_lt by lia. f_equal; lia. Qed.

Lemma elem_of_range n i : i ∈ range n ↔ 0 ≤ i < Z.of_nat n.
Proof. unfold range. rewrite elem_of_seqZ. lia. Qed.

Lemma NoDup_range n : NoDup (range n).
Proof. apply NoDup_seqZ. Qed.

Lemma range_S n : range (S n) = range n ++ [Z.of_nat n].
Proof.
  unfold range. replace (Z.of_nat (S n)) with (Z.of_nat n + 1) by lia.
  rewrite seqZ_app by lia. simpl. f_equal.
Qed.

Lemma enumerate_snoc {A} (l : list A) x :
  enumerate (l ++ [x]) = enumerate l ++ [(Z.of_nat (length l), x)].
Proof.
  unfold enumerate. rewrite length_app; simpl.
  rewrite Nat.add_1_r, range_S.
  rewrite zip_with_app by (by rewrite length_range). done.
Qed.

Lemma lookup_enumerate {A} (l : list A) (i : nat) :
  enumerate l !! i = (λ x, (Z.of_nat i, x)) <$> l !! i.
Proof.
  unfold enumerate. rewrite lookup_zip_with.
  destruct (l !! i) as [x|] eqn:Hi; simpl.
  - rewrite lookup_range by (by eapply lookup_lt_Some). done.
  - by destruct (range (length l) !! i).
Qed.

Lemma getitem_in_range {A} (l : list A) (i : Z) :
  0 ≤ i < Z.of_nat (length l) →
  ∃ x, l !! Z.to_nat i = Some x ∧ getitem l i = inr x.
Proof.
  intros Hi. unfold getitem. rewrite bool_decide_eq_true_2 by done.
  destruct (lookup_lt_is_Some_2 l (Z.to_nat i)) as [x Hx]; [lia|].
  exists x. by rewrite Hx.
Qed.

Lemma NoDup_omap_inj {A B} (g : A → option B) (l : list A) :
  (∀ x y z, x ∈ l → y ∈ l → g x = Some z → g y = Some z → x = y) →
  NoDup l → NoDup (omap g l).
Proof.
  intros Hinj Hl. induction Hl as [|x l Hx Hl IH]; csimpl; [constructor|].
  assert (NoDup (omap g l)) as Hrec.
  { apply IH. intros a b z Ha Hb. apply Hinj; by right. }
  destruct (g x) as [z|] eqn:Hz; [|done].
  constructor; [|done].
  rewrite list_elem_of_omap. intros (y & Hy & Hgy).
  assert (x = y) as ->; [|done].
  apply (Hinj x y z); [by left|by right|done|done].
Qed.

Lemma length_omap_total {A B} (g : A → option B) (l : list A) :
  Forall (λ x, is_Some (g x)) l → length (omap g l) = length l.
Proof.
  induction 1 as [|x l [y Hy] _ IH]; csimpl; [done|].
  rewrite Hy; csimpl. by rewrite IH.
Qed.

(** ** The dictionary of new positions *)

Lemma old_to_new_of_snoc indices x :
  old_to_new_of (indices ++ [x])
  = <[x := Z.of_nat (length indices)]> (old_to_new_of indices).
Proof. unfold old_to_new_of. by rewrite enumerate_snoc, foldl_snoc. Qed.

Lemma lookup_old_to_new_of indices k j :
  NoDup indices →
  old_to_new_of indices !! k = Some j
  ↔ 0 ≤ j ∧ indices !! Z.to_nat j = Some k.
Proof.
  induction indices as [|x indices IH] using rev_ind; intros Hnd.
  - unfold old_to_new_of; simpl. rewrite lookup_empty.
    split; [done|]. by intros [_ ?].
  - apply NoDup_app in Hnd as (Hnd & Hx & _).
    rewrite old_to_new_of_snoc.
    destruct (decide (x = k)) as [->|Hne].
    + rewrite lookup_insert_eq. split.
      * intros [= <-]. split; [lia|].
        rewrite Nat2Z.id. by rewrite lookup_app_r, Nat.sub_diag.
      * intros [Hj Hlk]. f_equal.
        destruct (decide (Z.to_nat j < length indices)%nat) as [Hlt|Hge].
        -- rewrite lookup_app_l in Hlk by done.
           apply list_elem_of_lookup_2 in Hlk.
           exfalso. apply (Hx k Hlk). by left.
        -- apply lookup_lt_Some in Hlk. rewrite length_app in Hlk.
           simpl in Hlk. lia.
    + rewrite lookup_insert_ne by done. rewrite IH by done.
      split; intros [Hj Hlk]; (split; [done|]).
      * rewrite lookup_app_l; [done|]. by eapply lookup_lt_Some.
      * destruct (decide (Z.to_nat j < length indices)%nat) as [Hlt|Hge].
        -- by rewrite lookup_app_l in Hlk.
        -- rewrite lookup_app_r in Hlk by lia.
           destruct (Z.to_nat j - length indices)%nat; simpl in Hlk;
             [congruence|done].
Qed.

Lemma omap_lookup_range {A} (l : list A) :
  omap (λ i, l !! Z.to_nat i) (range (length l)) = l.
Proof.
  induction l as [|x l IH] using rev_ind; [done|].
  rewrite length_app, Nat.add_1_r, range_S, omap_app. f_equal.
  - rewrite <- IH at 2. apply list_omap_ext, Forall_Forall2_diag.
    apply Forall_forall. intros i Hi%elem_of_range.
    apply lookup_app_l. lia.
  - csimpl. rewrite Nat2Z.id, lookup_app_r, Nat.sub_diag by lia. done.
Qed.

Lemma lookup_omap_total {A B} (g : A → option B) (l : list A) (j : nat) :
  Forall (λ x, is_Some (g x)) l → omap g l !! j = l !! j ≫= g.
Proof.
  intros Hl. revert j. induction Hl as [|x l [y Hy] _ IH]; intros j.
  - done.
  - csimpl. rewrite Hy. destruct j as [|j]; simpl; [done|]. apply IH.
Qed.

(** ** Shuffling the options of a question *)

Section Shuffle.
Variables (indices : list Z) (q : Question).
Hypothesis Hperm : indices ≡ₚ range (length (options q)).
Hypothesis Hcorrect :
  ∀ i, i ∈ correct_answers q → 1 ≤ i ≤ Z.of_nat (length (options q)).

Local Abbreviation pos := (new_position indices).
Local Abbreviation q' := (shuffled indices q).

Lemma indices_NoDup : NoDup indices.
Proof. rewrite Hperm. apply NoDup_range. Qed.

Lemma indices_in_range i :
  i ∈ indices ↔ 0 ≤ i < Z.of_nat (length (options q)).
Proof. rewrite Hperm. apply elem_of_range. Qed.

Lemma indices_length : length indices = length (options q).
Proof. by rewrite Hperm, length_range. Qed.

Lemma new_position_Some c c' :
  pos c = Some c'
  ↔ 1 ≤ c' ∧ indices !! Z.to_nat (c' - 1) = Some (c - 1).
Proof.
  unfold new_position. rewrite fmap_Some. split.
  - intros (j & Hj & ->).
    apply lookup_old_to_new_of in Hj as [? ?]; [|apply indices_NoDup].
    split; [lia|]. by replace (j + 1 - 1) with j by lia.
  - intros [Hc' Hlk]. exists (c' - 1). split; [|lia].
    apply lookup_old_to_new_of; [apply indices_NoDup|]. split; [lia|done].
Qed.

Lemma new_position_total c :
  c ∈ correct_answers q → is_Some (pos c).
Proof.
  intros Hc. assert (c - 1 ∈ indices) as Hin.
  { apply indices_in_range. specialize (Hcorrect c Hc). lia. }
  apply list_elem_of_lookup in Hin as [j Hj].
  exists (Z.of_nat j + 1). apply new_position_Some. split; [lia|].
  by replace (Z.to_nat (Z.of_nat j + 1 - 1)) with j by lia.
Qed.

Lemma new_position_inj c1 c2 c' :
  pos c1 = Some c' → pos c2 = Some c' → c1 = c2.
Proof.
  rewrite !new_position_Some. intros [_ H1] [_ H2].
  rewrite H1 in H2. injection H2. lia.
Qed.

Lemma shuffled_options_ok :
  for_list (getitem (options q)) indices
  = inr (omap (λ i, options q !! Z.to_nat i) indices).
Proof.
  apply for_list_pure, Forall_forall. intros i Hi.
  apply indices_in_range in Hi.
  destruct (getitem_in_range (options q) i Hi) as (x & Hx & Hg). eauto.
Qed.

Lemma new_correct_ok :
  for_list (λ old_correct_idx,
              let old_zero_based := old_correct_idx - 1 in
              new_zero_based ←
                dict_getitem (old_to_new_of indices) old_zero_based;
              mret (new_zero_based + 1))
           (elements (correct_answers q))
  = inr (omap pos (elements (correct_answers q))).
Proof.
  apply for_list_pure, Forall_forall. intros c Hc.
  apply elem_of_elements in Hc.
  destruct (new_position_total c Hc) as [c' Hc']. exists c'. split; [done|].
  unfold new_position in Hc'. apply fmap_Some in Hc' as (j & Hj & ->).
  unfold dict_getitem. by rewrite Hj.
Qed.

Lemma shuffle_options_shuffled : shuffle_options indices q = inr q'.
Proof.
  unfold shuffle_options. rewrite shuffled_options_ok.
  cbn [mbind result_bind].
  pose proof new_correct_ok as Hnew. cbv zeta in Hnew. rewrite Hnew.
  cbn [mbind result_bind]. unfold shuffled.
  by destruct (original_options q).
Qed.

Lemma shuffled_options_perm : options q' ≡ₚ options q.
Proof. simpl. rewrite Hperm. by rewrite omap_lookup_range. Qed.

Lemma shuffled_options_length :
  length (options q') = length (options q).
Proof. by rewrite shuffled_options_perm. Qed.

Lemma elem_of_shuffled_correct c' :
  c' ∈ correct_answers q'
  ↔ ∃ c, c ∈ correct_answers q ∧ pos c = Some c'.
Proof.
  simpl. rewrite elem_of_list_to_set, list_elem_of_omap.
  by setoid_rewrite elem_of_elements.
Qed.

Lemma shuffled_correct_size :
  size (correct_answers q') = size (correct_answers q).
Proof.
  simpl. rewrite size_list_to_set.
  - rewrite length_omap_total; [done|].
    apply Forall_forall. intros c Hc%elem_of_elements.
    by apply new_position_total.
  - apply NoDup_omap_inj; [|apply NoDup_elements].
    intros c1 c2 c' _ _. apply new_position_inj.
Qed.

Lemma shuffled_option_at c c' :
  pos c = Some c' → option_at q' c' = option_at q c.
Proof.
  intros [Hc' Hlk]%new_position_Some.
  assert (0 ≤ c - 1) as Hc.
  { apply list_elem_of_lookup_2, indices_in_range in Hlk. lia. }
  unfold option_at. rewrite !bool_decide_eq_true_2 by lia. simpl.
  rewrite lookup_omap_total, Hlk; [done|].
  apply Forall_forall. intros i Hi%indices_in_range.
  apply lookup_lt_is_Some_2. lia.
Qed.

Lemma elem_of_correct_texts (p : Question) t :
  t ∈ correct_texts p
  ↔ ∃ c, c ∈ correct_answers p ∧ option_at p c = Some t.
Proof.
  unfold correct_texts. rewrite elem_of_list_to_set, list_elem_of_omap.
  by setoid_rewrite elem_of_elements.
Qed.

Lemma shuffled_correct_texts : correct_texts q' = correct_texts q.
Proof.
  apply set_eq. intros t. rewrite !elem_of_correct_texts. split.
  - intros (c' & (c & Hc & Hpos)%elem_of_shuffled_correct & Ht).
    exists c. split; [done|]. by rewrite <- (shuffled_option_at c c').
  - intros (c & Hc & Ht).
    destruct (new_position_total c Hc) as [c' Hpos].
    exists c'. split.
    + apply elem_of_shuffled_correct. eauto.
    + by rewrite (shuffled_option_at c c').
Qed.

Lemma shuffled_valid : Question_valid q → Question_valid q'.
Proof.
  intros [Hq Ho Hn Hc]. split.
  - done.
  - by rewrite shuffled_options_length.
  - by rewrite shuffled_correct_size.
  - intros c' (c & _ & [Hc' Hlk]%new_position_Some)%elem_of_shuffled_correct.
    rewrite shuffled_options_length.
    apply lookup_lt_Some in Hlk. rewrite indices_length in Hlk. lia.
Qed.

End Shuffle.

Lemma Question_new_valid text opts correct d q :
  Question_new text opts correct d = inr q → Question_valid q.
Proof.
  unfold Question_new, validate_correct.
  repeat (case_bool_decide; simpl; [|done]).
  case_bool_decide as Hbad; simpl; [done|].
  intros [= <-]. split; simpl; [done..|].
  intros i Hi. destruct (decide (1 ≤ i ≤ Z.of_nat (length opts))); [done|].
  exfalso. apply Hbad. exists i. split; [done|lia].
Qed.

Lemma sample_question_valid : Question_valid sample_question.
Proof.
  split; simpl; [lia|lia|vm_compute; lia|].
  intros i. rewrite elem_of_union, !elem_of_singleton. lia.
Defined.

Lemma shuffle_many_ok draws : ∀ q,
  Question_valid q →
  Forall (λ indices, indices ≡ₚ range (length (options q))) draws →
  ∃ q', shuffle_many draws q = inr q'
        ∧ Question_valid q'
        ∧ length (options q') = length (options q)
        ∧ size (correct_answers q') = size (correct_answers q).
Proof.
  induction draws as [|indices draws IH]; intros q Hq Hdraws; simpl.
  - by exists q.
  - apply Forall_cons in Hdraws as [Hperm Hdraws].
    pose proof (valid_correct q Hq) as Hc.
    rewrite (shuffle_options_shuffled indices q Hperm Hc); simpl.
    destruct (IH (shuffled indices q)) as (q' & Hrun & Hv & Hlen & Hsize).
    + by apply shuffled_valid.
    + by rewrite shuffled_options_length.
    + exists q'. split; [done|]. split; [done|].
      rewrite Hlen, Hsize, shuffled_options_length by done.
      by rewrite shuffled_correct_size.
Qed.

(** ** Claims about [Question] *)

(** C1. A shuffle of a valid question keeps the multiset of option texts,
    and the set of texts at the correct positions after the call is the
    set of texts at the correct positions before it. *)
Theorem shuffle_keeps_texts (q : Question) (indices : list Z) :
  Question_valid q →
  indices ≡ₚ range (length (options q)) →
  ∃ q', shuffle_options indices q = inr q'
        ∧ options q' ≡ₚ options q
        ∧ correct_texts q' = correct_texts q.
Proof.
  intros Hq Hperm. pose proof (valid_correct q Hq) as Hc.
  exists (shuffled indices q). split; [|split].
  - by apply shuffle_options_shuffled.
  - by apply shuffled_options_perm.
  - by apply shuffled_correct_texts.
Qed.

Lemma shuffle_keeps_texts_witness :
  ∃ q', shuffle_options [2; 0; 3; 1] sample_question = inr q'
        ∧ options q' ≡ₚ options sample_question
        ∧ correct_texts q' = correct_texts sample_question.
Proof.
  apply (shuffle_keeps_texts sample_question [2; 0; 3; 1]).
  - exact sample_question_valid.
  - apply (bool_decide_unpack _). by vm_compute.
Defined.

(** C4. Along any finite run of shuffles of a valid question, the number
    of correct positions after each call is the number before the first
    call. *)
Theorem shuffles_keep_correct_size (q : Question) (draws : list (list Z))
    (k : nat) :
  Question_valid q →
  Forall (λ indices, indices ≡ₚ range (length (options q))) draws →
  ∃ q', shuffle_many (take k draws) q = inr q'
        ∧ size (correct_answers q') = size (correct_answers q).
Proof.
  intros Hq Hdraws.
  destruct (shuffle_many_ok (take k draws) q Hq) as (q' & Hrun & _ & _ & Hs).
  - by apply Forall_take.
  - by exists q'.
Qed.

Lemma shuffles_keep_correct_size_witness :
  ∃ q', shuffle_many (take 2 [[2; 0; 3; 1]; [3; 2; 1; 0]; [0; 1; 3; 2]])
                     sample_question = inr q'
        ∧ size (correct_answers q') = size (correct_answers sample_question).
Proof.
  apply shuffles_keep_correct_size.
  - exact sample_question_valid.
  - repeat constructor; apply (bool_decide_unpack _); by vm_compute.
Defined.

(** C5. On a question that passed validation a shuffle cannot fail: every
    lookup [options[i]] and every lookup [old_to_new[old_correct_idx - 1]]
    finds its entry, and the call returns a question. *)
Theorem shuffle_never_fails (q : Question) (indices : list Z) :
  Question_valid q →
  indices ≡ₚ range (length (options q)) →
  Forall (λ i, ∃ text, getitem (options q) i = inr text) indices
  ∧ (∀ c, c ∈ correct_answers q →
          ∃ j, dict_getitem (old_to_new_of indices) (c - 1) = inr j)
  ∧ ∃ q', shuffle_options indices q = inr q'.
Proof.
  intros Hq Hperm. pose proof (valid_correct q Hq) as Hc.
  split; [|split].
  - apply Forall_forall. intros i Hi.
    apply (indices_in_range indices q Hperm) in Hi.
    destruct (getitem_in_range (options q) i Hi) as (x & _ & Hx). eauto.
  - intros c Hin.
    destruct (new_position_total indices q Hperm Hc c Hin) as [c' Hc'].
    unfold new_position in Hc'. apply fmap_Some in Hc' as (j & Hj & _).
    exists j. unfold dict_getitem. by rewrite Hj.
  - exists (shuffled indices q). by apply shuffle_options_shuffled.
Qed.

Lemma shuffle_never_fails_witness :
  Forall (λ i, ∃ text, getitem (options sample_question) i = inr text)
         [2; 0; 3; 1]
  ∧ (∀ c, c ∈ correct_answers sample_question →
          ∃ j, dict_getitem (old_to_new_of [2; 0; 3; 1]) (c - 1) = inr j)
  ∧ ∃ q', shuffle_options [2; 0; 3; 1] sample_question = inr q'.
Proof.
  apply (shuffle_never_fails sample_question [2; 0; 3; 1]).
  - exact sample_question_valid.
  - apply (bool_decide_unpack _). by vm_compute.
Defined.

(** ** Scoring *)

Lemma filter_ext_in {A} (P1 P2 : A → Prop)
    `{!∀ x, Decision (P1 x), !∀ x, Decision (P2 x)} (l : list A) :
  (∀ x, x ∈ l → P1 x ↔ P2 x) → filter P1 l = filter P2 l.
Proof.
  induction l as [|a l IH]; intros Hiff; [done|].
  assert (filter P1 l = filter P2 l) as Hrec.
  { apply IH. intros x Hx. apply Hiff. by right. }
  destruct (decide (P1 a)) as [Ha|Ha].
  - rewrite !filter_cons_True; [by f_equal|by apply Hiff; [left|]|done].
  - rewrite !filter_cons_False; [done| |done].
    intros Hb. apply Ha, Hiff; [by left|done].
Qed.

Lemma count_correct_snoc history qs q :
  count_correct history (qs ++ [q])
  = count_correct history qs
    + (if bool_decide (default ∅ (history !! Z.of_nat (length qs))
                       = correct_answers q) then 1 else 0).
Proof.
  unfold count_correct. rewrite enumerate_snoc, foldl_snoc.
  unfold dict_get. case_bool_decide; lia.
Qed.

Lemma spec_correct_count_snoc history qs q :
  spec_correct_count history (qs ++ [q])
  = spec_correct_count history qs
    + (if bool_decide (default ∅ (history !! Z.of_nat (length qs))
                       = correct_answers q) then 1 else 0).
Proof.
  unfold spec_correct_count.
  rewrite length_app, Nat.add_1_r, range_S, filter_app, length_app.
  rewrite Nat2Z.inj_add. f_equal.
  - do 2 f_equal. apply filter_ext_in. intros idx Hidx%elem_of_range.
    rewrite lookup_app_l by lia. done.
  - assert ((qs ++ [q]) !! Z.to_nat (Z.of_nat (length qs)) = Some q) as Hq.
    { by rewrite Nat2Z.id, lookup_app_r, Nat.sub_diag. }
    case_bool_decide as Heq.
    + rewrite filter_cons_True; [done|]. rewrite Hq; simpl. by rewrite Heq.
    + rewrite filter_cons_False; [done|]. rewrite Hq; simpl.
      intros [= Hbad]. by apply Heq.
Qed.

Lemma count_correct_spec history qs :
  count_correct history qs = spec_correct_count history qs.
Proof.
  induction qs as [|q qs IH] using rev_ind; [done|].
  by rewrite count_correct_snoc, spec_correct_count_snoc, IH.
Qed.

Lemma spec_correct_count_agree h1 h2 qs :
  (∀ idx, 0 ≤ idx < Z.of_nat (length qs) → h1 !! idx = h2 !! idx) →
  spec_correct_count h1 qs = spec_correct_count h2 qs.
Proof.
  intros Hagree. unfold spec_correct_count. do 2 f_equal.
  apply filter_ext_in. intros idx Hidx%elem_of_range.
  by rewrite Hagree.
Qed.

Lemma percentage_of_formula (count total : Z) :
  total ≠ 0 → 0 ≤ total →
  percentage_of count total
  = (Qc_of_Z 100 * Qc_of_Z count / Qc_of_Z total)%Qc.
Proof.
  intros Hne Hpos. unfold percentage_of.
  rewrite bool_decide_eq_true_2 by lia. unfold Qcdiv. ring.
Qed.

(** C2, as the code has it. [calculate_results] counts the indices of
    [0 .. len(questions)-1] whose history entry (the empty set when there
    is none) equals the correct set of the question. The percentage it
    stores is the binary64 value of
    [(correct_count / total_questions) * 100]: the quotient rounded to
    the nearest binary64 value, then its product with [100.0] rounded
    again; it is [0.0] when there is no question, and behind the guard
    the division never raises [ZeroDivisionError]. *)
Theorem calculate_results_counts (now : float) (s : CurrentTestState) :
  let s' := calculate_results now s in
  total_questions s' = Z.of_nat (length (questions s))
  ∧ correct_count s' = spec_correct_count (answers_history s) (questions s)
  ∧ ∃ r, score_binary64 s = inr r
         ∧ score_total_questions r = total_questions s'
         ∧ score_correct_count r = correct_count s'
         ∧ score_percentage r
           = (if bool_decide (total_questions s' = 0) then S754_zero false
              else SFmul Float64.prec Float64.emax
                     (SFdiv Float64.prec Float64.emax
                        (Float64.int_operand (correct_count s'))
                        (Float64.int_operand (total_questions s')))
                     (Float64.of_int 100))
         ∧ score_grade r = grade_binary64 (score_percentage r).
Proof.
  simpl. split; [done|]. split; [apply count_correct_spec|].
  unfold score_binary64, percentage_binary64, Float64.int_truediv.
  cbv zeta. case_bool_decide as Hpos.
  - rewrite (bool_decide_eq_false_2 (Z.of_nat (length (questions s)) = 0))
      by lia.
    eexists. split; [done|]. simpl. by repeat split.
  - rewrite (bool_decide_eq_true_2 (Z.of_nat (length (questions s)) = 0))
      by lia.
    eexists. split; [done|]. simpl. by repeat split.
Qed.

(** C2 as stated fails. With two answers right out of three, the
    percentage that the code stores is [4691249611844266 * 2^-46], which
    prints as [66.66666666666666]: it is not the number [100 * 2 / 3],
    and it is not the binary64 value of [100 * 2 / 3] either, which is
    [4691249611844267 * 2^-46] and prints as [66.66666666666667]. *)
Lemma percentage_rounded_twice :
  let s' := calculate_results (Qc_of_Z 125) scenario_session in
  correct_count s' = 2
  ∧ total_questions s' = 3
  ∧ ∃ r, score_binary64 scenario_session = inr r
         ∧ score_percentage r = S754_finite false 4691249611844266 (-46)
         ∧ ¬ (Float64.value (score_percentage r) == 100 * 2 / 3)%Q
         ∧ Float64.int_truediv (100 * 2) 3
           = inr (S754_finite false 4691249611844267 (-46))
         ∧ score_percentage r ≠ S754_finite false 4691249611844267 (-46).
Proof.
  cbv zeta. split; [by vm_compute|]. split; [by vm_compute|].
  eexists. split; [by vm_compute|]. simpl.
  split; [done|]. split; [by vm_compute|]. split; [by vm_compute|].
  discriminate.
Qed.

(** For every bank of up to 250 questions the two readings of the
    percentage agree where it matters: the binary64 value is within
    [2^-46] of the rational one, and both fall in the same tier, so the
    grade does not depend on the rounding. *)
Lemma score_grid_complete (bound : nat) (c t : Z) :
  0 ≤ c ≤ t → t ≤ Z.of_nat bound → (c, t) ∈ score_grid bound.
Proof.
  intros Hc Ht. unfold score_grid.
  apply list_elem_of_bind. exists (Z.to_nat t). split.
  - apply list_elem_of_bind. exists (Z.to_nat c). split.
    + rewrite !Z2Nat.id by lia. apply list_elem_of_singleton. done.
    + apply elem_of_seq. lia.
  - apply elem_of_seq. lia.
Qed.

Lemma binary64_agrees_on_grid :
  forallb (λ '(c, t), binary64_agrees c t) (score_grid 250) = true.
Proof. by vm_compute. Qed.

Lemma binary64_close_to_rational (c t : Z) :
  0 ≤ c ≤ t → t ≤ 250 →
  ∃ p, percentage_binary64 c t = inr p
       ∧ grade_binary64 p = grade_of (percentage_of c t)
       ∧ (Qabs (Float64.value p - percentage_of c t)
          <= 1 # 70368744177664)%Q.
Proof.
  intros Hc Ht.
  assert (binary64_agrees c t = true) as Hok.
  { apply (proj1 (forallb_forall _ _) binary64_agrees_on_grid (c, t)).
    apply list_elem_of_In. by apply score_grid_complete. }
  unfold binary64_agrees in Hok.
  destruct (percentage_binary64 c t) as [|p]; [done|].
  apply andb_true_iff in Hok as [Hgrade Hclose].
  exists p. split; [done|]. split; [by apply bool_decide_eq_true in Hgrade|].
  by apply Qle_bool_iff.
Qed.

(** The four grades are four different strings. *)
Lemma grades_distinct :
  grade_excellent ≠ grade_good ∧ grade_excellent ≠ grade_satisfactory
  ∧ grade_excellent ≠ grade_unsatisfactory
  ∧ grade_good ≠ grade_satisfactory ∧ grade_good ≠ grade_unsatisfactory
  ∧ grade_satisfactory ≠ grade_unsatisfactory.
Proof. repeat split; discriminate. Qed.

(** Linear order facts between a rational and integer constants. *)
Ltac qc_order :=
  unfold Qcle, Qclt in *; cbn in *; unfold inject_Z in *; lra.

Lemma grade_of_tiers (p : float) :
  (grade_of p = grade_excellent ↔ (Qc_of_Z 90 ≤ p)%Qc)
  ∧ (grade_of p = grade_good ↔ (Qc_of_Z 75 ≤ p < Qc_of_Z 90)%Qc)
  ∧ (grade_of p = grade_satisfactory ↔ (Qc_of_Z 60 ≤ p < Qc_of_Z 75)%Qc)
  ∧ (grade_of p = grade_unsatisfactory ↔ (p < Qc_of_Z 60)%Qc).
Proof.
  destruct grades_distinct as (H1 & H2 & H3 & H4 & H5 & H6).
  unfold grade_of. repeat case_bool_decide.
  all: repeat split; intros; try done; try congruence; qc_order.
Qed.

(** C3. After [calculate_results] the grade follows from the percentage
    by four tiers whose lower bounds are inclusive: at least 90, at least
    75, at least 60, and below 60; so 90.0 is in the top tier, 89.9 and
    75.0 in the second, 74.9 and 60.0 in the third and 59.9 in the
    lowest. *)
Theorem grade_tiers (now : float) (s : CurrentTestState) :
  let s' := calculate_results now s in
  let p := percentage s' in
  (grade s' = grade_excellent ↔ (Qc_of_Z 90 ≤ p)%Qc)
  ∧ (grade s' = grade_good ↔ (Qc_of_Z 75 ≤ p < Qc_of_Z 90)%Qc)
  ∧ (grade s' = grade_satisfactory ↔ (Qc_of_Z 60 ≤ p < Qc_of_Z 75)%Qc)
  ∧ (grade s' = grade_unsatisfactory ↔ (p < Qc_of_Z 60)%Qc)
  ∧ grade s' = grade_of p
  ∧ grade_of (Qc_of_Z 90) = grade_excellent
  ∧ grade_of (Q2Qc (899 # 10)) = grade_good
  ∧ grade_of (Qc_of_Z 75) = grade_good
  ∧ grade_of (Q2Qc (749 # 10)) = grade_satisfactory
  ∧ grade_of (Qc_of_Z 60) = grade_satisfactory
  ∧ grade_of (Q2Qc (599 # 10)) = grade_unsatisfactory.
Proof.
  intros s' p.
  destruct (grade_of_tiers p) as (T1 & T2 & T3 & T4).
  repeat split; try apply T1; try apply T2; try apply T3; try apply T4;
    done.
Qed.

(** The scenario of the specification: two answers out of three are right,
    which in the rationals is two thirds of a hundred, and the third
    tier; 125 seconds read as two minutes and five seconds. *)
Example scenario_results :
  let r := calculate_results (Qc_of_Z 125) scenario_session in
  correct_count r = 2
  ∧ total_questions r = 3
  ∧ percentage r = Q2Qc (200 # 3)
  ∧ grade r = grade_satisfactory
  ∧ elapsed_time r = "02:05".
Proof.
  cbv zeta. split; [by vm_compute|]. split; [by vm_compute|].
  split; [apply Qc_is_canon; by vm_compute|].
  split; by vm_compute.
Qed.

(** ** The session and its history *)

Lemma run_ops_snoc ops op s :
  run_ops (ops ++ [op]) s = run_op op (run_ops ops s).
Proof. unfold run_ops. by rewrite foldl_snoc. Qed.

Lemma run_op_questions op s : questions (run_op op s) = questions s.
Proof.
  destruct op; simpl; try done.
  unfold load_answer. by destruct (answers_history s !! _).
Qed.

Lemma run_ops_questions ops s : questions (run_ops ops s) = questions s.
Proof.
  induction ops as [|op ops IH] using rev_ind; [done|].
  by rewrite run_ops_snoc, run_op_questions.
Qed.

Lemma run_op_current_index op s :
  current_index (run_op op s)
  = match op with OpAssignIndex v => v | _ => current_index s end.
Proof.
  destruct op; simpl; try done.
  unfold load_answer. by destruct (answers_history s !! _).
Qed.

Lemma run_op_history op s i :
  ¬ writes_history i op →
  answers_history (run_op op s) !! i = answers_history s !! i.
Proof.
  destruct op as [v|v|j|j|now]; simpl; intros Hw; try done.
  - by rewrite lookup_insert_ne.
  - unfold load_answer. by destruct (answers_history s !! j).
Qed.

Lemma run_ops_history ops s i :
  Forall (λ op, ¬ writes_history i op) ops →
  answers_history (run_ops ops s) !! i = answers_history s !! i.
Proof.
  induction ops as [|op ops IH] using rev_ind; intros Hops; [done|].
  apply Forall_app in Hops as [Hops Hop%Forall_inv].
  rewrite run_ops_snoc, run_op_history by done. by apply IH.
Qed.

Lemma CurrentTestState_new_fields qs idx now s :
  CurrentTestState_new qs idx now = inr s →
  questions s = qs
  ∧ (qs ≠ [] → 0 ≤ current_index s < Z.of_nat (length qs)).
Proof.
  unfold CurrentTestState_new. destruct idx as [v|]; simpl.
  - unfold validate_index.
    destruct (negb _ && _) eqn:Hguard; simpl; [done|].
    intros [= <-]; simpl. split; [done|]. intros Hne.
    apply andb_false_iff in Hguard as [Hempty|Hrange].
    + apply negb_false_iff, bool_decide_eq_true in Hempty. done.
    + apply orb_false_iff in Hrange as [H1 H2].
      apply bool_decide_eq_false in H1, H2. lia.
  - intros [= <-]; simpl. split; [done|]. intros Hne.
    destruct qs; [done|]. simpl. lia.
Qed.

Lemma final_index_snoc ops op start :
  final_index (ops ++ [op]) start
  = match op with
    | OpAssignIndex v => v
    | _ => final_index ops start
    end.
Proof. unfold final_index. by rewrite foldl_app. Qed.

Lemma run_ops_current_index ops s :
  current_index (run_ops ops s) = final_index ops (current_index s).
Proof.
  induction ops as [|op ops IH] using rev_ind; [done|].
  rewrite run_ops_snoc, run_op_current_index, final_index_snoc, IH.
  done.
Qed.

(** C7, as the code has it. A session built on a non-empty list of
    questions starts with its index in range; [save_answer],
    [load_answer] and [calculate_results] leave the index and the
    questions as they are, whatever the session; an assignment to
    [current_index] stores the value as given. So after a run the index
    is the value of the last assignment, or the initial index when there
    was none, and it is in range along a run whose assignments are
    themselves in range. *)
Theorem index_in_range_kept (qs : list Question) (idx : option Z)
    (now : float) (s : CurrentTestState) (ops : list session_op) :
  qs ≠ [] →
  CurrentTestState_new qs idx now = inr s →
  Forall (assigns_in_range (length qs)) ops →
  index_in_range s
  ∧ index_in_range (run_ops ops s)
  ∧ questions (run_ops ops s) = qs
  ∧ current_index (run_ops ops s) = final_index ops (current_index s)
  ∧ (∀ st i, current_index (save_answer i st) = current_index st
             ∧ questions (save_answer i st) = questions st)
  ∧ (∀ st i, current_index (load_answer i st) = current_index st
             ∧ questions (load_answer i st) = questions st)
  ∧ (∀ st now', current_index (calculate_results now' st) = current_index st
                ∧ questions (calculate_results now' st) = questions st)
  ∧ ∀ v, current_index (run_op (OpAssignIndex v) (run_ops ops s)) = v.
Proof.
  intros Hne Hnew Hops.
  apply CurrentTestState_new_fields in Hnew as [Hqs Hidx].
  specialize (Hidx Hne).
  assert (index_in_range s) as Hs.
  { unfold index_in_range. by rewrite Hqs. }
  split; [done|]. split; [|split; [|split; [|split; [|split; [|split]]]]].
  - induction ops as [|op ops IH] using rev_ind; [done|].
    apply Forall_app in Hops as [Hops Hop%Forall_inv].
    specialize (IH Hops). rewrite run_ops_snoc. unfold index_in_range in *.
    rewrite run_op_questions, run_op_current_index.
    rewrite run_ops_questions, Hqs in *.
    destruct op; simpl in *; done.
  - by rewrite run_ops_questions.
  - apply run_ops_current_index.
  - intros st i. split.
    + apply (run_op_current_index (OpSaveAnswer i)).
    + apply (run_op_questions (OpSaveAnswer i)).
  - intros st i. split.
    + apply (run_op_current_index (OpLoadAnswer i)).
    + apply (run_op_questions (OpLoadAnswer i)).
  - intros st now'. split.
    + apply (run_op_current_index (OpCalculateResults now')).
    + apply (run_op_questions (OpCalculateResults now')).
  - done.
Qed.

Lemma index_in_range_kept_witness :
  index_in_range sample_new_session
  ∧ index_in_range (run_ops sample_ops sample_new_session)
  ∧ questions (run_ops sample_ops sample_new_session) = sample_questions
  ∧ current_index (run_ops sample_ops sample_new_session)
    = final_index sample_ops (current_index sample_new_session)
  ∧ (∀ st i, current_index (save_answer i st) = current_index st
             ∧ questions (save_answer i st) = questions st)
  ∧ (∀ st i, current_index (load_answer i st) = current_index st
             ∧ questions (load_answer i st) = questions st)
  ∧ (∀ st now', current_index (calculate_results now' st) = current_index st
                ∧ questions (calculate_results now' st) = questions st)
  ∧ ∀ v, current_index
           (run_op (OpAssignIndex v) (run_ops sample_ops sample_new_session))
         = v.
Proof.
  apply (index_in_range_kept sample_questions (Some 0) (Qc_of_Z 0)).
  - discriminate.
  - reflexivity.
  - repeat constructor; simpl; lia.
Defined.

(** C7 as stated fails: the index of a session with three questions is
    out of range after a plain assignment. *)
Lemma index_assignment_unchecked :
  ∃ s, CurrentTestState_new sample_questions None (Qc_of_Z 0) = inr s
       ∧ questions s ≠ []
       ∧ ¬ index_in_range (run_op (OpAssignIndex 5) s).
Proof.
  eexists. split; [reflexivity|]. split; [done|].
  unfold index_in_range; simpl. lia.
Qed.

(** C9. [save_answer(i)] followed, after any operations that do not write
    the history entry of [i], by [load_answer(i)] restores the selection
    that was saved; [load_answer(j)] for an index without an entry leaves
    the empty selection. *)
Theorem save_load_round_trip (s : CurrentTestState) (i j : Z)
    (ops : list session_op) (t : CurrentTestState) :
  Forall (λ op, ¬ writes_history i op) ops →
  answers_history t !! j = None →
  selected_answers (load_answer i (run_ops ops (save_answer i s)))
  = selected_answers s
  ∧ selected_answers (load_answer j t) = ∅.
Proof.
  intros Hops Hnone. split.
  - unfold load_answer at 1. rewrite run_ops_history by done.
    simpl. by rewrite lookup_insert_eq.
  - unfold load_answer. by rewrite Hnone.
Qed.

Lemma save_load_round_trip_witness :
  selected_answers
    (load_answer 0
       (run_ops [OpAssignIndex 1; OpLoadAnswer 1; OpAssignSelected {[4]};
                 OpSaveAnswer 1; OpCalculateResults (Qc_of_Z 9)]
          (save_answer 0 sample_session)))
  = selected_answers sample_session
  ∧ selected_answers (load_answer 2 sample_session) = ∅.
Proof.
  apply save_load_round_trip.
  - repeat constructor; simpl; lia.
  - reflexivity.
Defined.

(** C10. [save_answer] stores an entry under any integer index, in range
    or not, and [calculate_results] reads the history at the indices
    [0 .. len(questions)-1] only: two histories that agree there give the
    same count, percentage and grade. *)
Theorem results_ignore_out_of_range (s : CurrentTestState) (i : Z)
    (now : float) (h : gmap Z (gset Z)) :
  (∀ idx, 0 ≤ idx < Z.of_nat (length (questions s)) →
          h !! idx = answers_history s !! idx) →
  answers_history (save_answer i s) !! i = Some (selected_answers s)
  ∧ let r := calculate_results now s in
    let r' := calculate_results now (set_answers_history h s) in
    correct_count r' = correct_count r
    ∧ percentage r' = percentage r
    ∧ grade r' = grade r.
Proof.
  intros Hagree. split.
  - simpl. apply lookup_insert_eq.
  - simpl. rewrite !count_correct_spec.
    by rewrite (spec_correct_count_agree h (answers_history s)).
Qed.

Lemma results_ignore_out_of_range_witness :
  answers_history (save_answer 7 sample_session) !! 7
  = Some (selected_answers sample_session)
  ∧ let r := calculate_results (Qc_of_Z 9) sample_session in
    let r' := calculate_results (Qc_of_Z 9)
                (set_answers_history
                   (answers_history (save_answer 7 sample_session))
                   sample_session) in
    correct_count r' = correct_count r
    ∧ percentage r' = percentage r
    ∧ grade r' = grade r.
Proof.
  apply results_ignore_out_of_range.
  intros idx Hidx. simpl in *. apply lookup_insert_ne. lia.
Defined.

(** ** The loader *)

Lemma size_ge_1 (X : gset Z) : (1 ≤ size X)%nat ↔ X ≠ ∅.
Proof.
  split.
  - intros Hs ->. rewrite size_empty in Hs. lia.
  - intros Hne. destruct (decide (size X = 0%nat)) as [Hz|Hz]; [|lia].
    apply size_empty_iff, leibniz_equiv in Hz. done.
Qed.

Lemma Question_new_inr text opts correct d :
  (1 ≤ String.length text ≤ 2000)%nat →
  (3 ≤ length opts ≤ 6)%nat →
  correct ≠ ∅ →
  (∀ i, i ∈ correct → 1 ≤ i ≤ Z.of_nat (length opts)) →
  Question_new text opts correct d
  = inr {| question := text; options := opts; correct_answers := correct;
           difficulty := d; original_options := None;
           shuffle_mapping := None |}.
Proof.
  intros Ht Ho Hne Hc. unfold Question_new, validate_correct.
  rewrite (bool_decide_eq_true_2 (_ ≤ String.length text ≤ _)%nat) by done.
  rewrite (bool_decide_eq_true_2 (_ ≤ length opts ≤ _)%nat) by done.
  rewrite (bool_decide_eq_true_2 (_ ≤ size correct)%nat)
    by (by apply size_ge_1).
  simpl. rewrite bool_decide_eq_false_2; [done|].
  intros (i & Hi & Hbad). specialize (Hc i Hi). lia.
Qed.

Lemma Question_new_inl text opts correct d e :
  Question_new text opts correct d = inl e → e = ValueError.
Proof.
  unfold Question_new, validate_correct.
  repeat (case_bool_decide; simpl); first [done | by intros [= <-]].
Qed.

Lemma Question_new_inv text opts correct d q :
  Question_new text opts correct d = inr q →
  (1 ≤ String.length text ≤ 2000)%nat
  ∧ (3 ≤ length opts ≤ 6)%nat
  ∧ correct ≠ ∅
  ∧ (∀ i, i ∈ correct → 1 ≤ i ≤ Z.of_nat (length opts)).
Proof.
  unfold Question_new, validate_correct.
  case_bool_decide as Ht; simpl; [|done].
  case_bool_decide as Ho; simpl; [|done].
  case_bool_decide as Hs; simpl; [|done].
  case_bool_decide as Hbad; simpl; [done|].
  intros _. split; [done|]. split; [done|]. split; [by apply size_ge_1|].
  intros i Hi. destruct (decide (1 ≤ i ≤ Z.of_nat (length opts))); [done|].
  exfalso. apply Hbad. exists i. split; [done|lia].
Qed.

Lemma int_closed (x : string) :
  Str.int x
  = if token_converts x then inr (token_value x) else inl ValueError.
Proof.
  unfold Str.int, token_converts, token_value.
  destruct (forallb Str.isdecimal (Str.chars x)); simpl; [|done].
  by case_bool_decide.
Qed.

Lemma collect_correct_closed (tokens : list string) (acc : gset Z) :
  let digits := filter (λ x, Str.isdigit x = true) (Str.strip <$> tokens) in
  collect_correct tokens acc
  = if forallb token_converts digits
    then inr (list_to_set (token_value <$> digits) ∪ acc)
    else inl ValueError.
Proof.
  revert acc. induction tokens as [|x tokens IH]; intros acc; simpl.
  - f_equal. set_solver.
  - destruct (Str.isdigit (Str.strip x)) eqn:Hdigit.
    + rewrite filter_cons_True by done. simpl.
      rewrite int_closed.
      destruct (token_converts (Str.strip x)); simpl; [|done].
      rewrite IH.
      destruct (forallb token_converts _); [|done].
      f_equal. set_solver.
    + rewrite filter_cons_False by (by rewrite Hdigit). apply IH.
Qed.

Lemma parse_correct_answers_closed (correct_str : string) :
  parse_correct_answers (JStr correct_str)
  = if forallb token_converts (digit_tokens correct_str)
    then inr (digit_token_values correct_str)
    else inl ValueError.
Proof.
  unfold parse_correct_answers; simpl. rewrite collect_correct_closed.
  fold (digit_tokens correct_str). unfold digit_token_values.
  destruct (forallb token_converts _); [|done]. f_equal. set_solver.
Qed.

Lemma for_list_json_str (opts : list json) :
  for_list json_str opts
  = if forallb is_str opts then inr (omap json_text opts)
    else inl ValueError.
Proof.
  induction opts as [|v opts IH]; [done|].
  destruct v; simpl; try done.
  rewrite IH. by destruct (forallb is_str opts).
Qed.

Lemma length_omap_json_text (opts : list json) :
  forallb is_str opts = true → length (omap json_text opts) = length opts.
Proof.
  induction opts as [|v opts IH]; [done|].
  destruct v; csimpl; try done. intros Hs. by rewrite IH.
Qed.

Lemma question_text_closed (fields : gmap string json) :
  json_getitem fields "question" ≫= json_str
  = match fields !! "question" with
    | Some (JStr text) => inr text
    | Some _ => inl ValueError
    | None => inl KeyError
    end.
Proof.
  unfold json_getitem.
  destruct (fields !! "question") as [v|]; [|done]. by destruct v.
Qed.

Lemma parse_item_unfold d (fields : gmap string json) (correct_str : string) :
  default (JStr "") (fields !! "correct_answers") = JStr correct_str →
  parse_item d (JObj fields)
  = let opts := record_options fields in
    if bool_decide (length opts < 3)%nat then inr None
    else if negb (forallb token_converts (digit_tokens correct_str))
    then inl ValueError
    else if bool_decide (digit_token_values correct_str = ∅) then inr None
    else
      text ← json_getitem fields "question" ≫= json_str;
      if negb (forallb is_str opts) then inl ValueError
      else
        q ← Question_new text (omap json_text opts)
                         (digit_token_values correct_str) d;
        mret (Some q).
Proof.
  intros Hfield. unfold parse_item, record_options.
  cbn [json_get mbind result_bind mret result_ret].
  destruct (default (JArr []) (fields !! "options")) as [| | | | |opts|];
    try done.
  case_bool_decide; [done|].
  rewrite Hfield, parse_correct_answers_closed.
  destruct (forallb token_converts _); simpl; [|done].
  case_bool_decide; [done|].
  unfold json_getitem.
  destruct (fields !! "question") as [[| | | |text| |]|]; simpl; try done.
  rewrite for_list_json_str. by destruct (forallb is_str opts).
Qed.

(** What the parser does with an object whose correct-answer field is a
    string or is missing. *)
Lemma parse_item_loadable d (fields : gmap string json)
    (correct_str : string) :
  default (JStr "") (fields !! "correct_answers") = JStr correct_str →
  loadable fields correct_str = true →
  ∃ q, parse_item d (JObj fields) = inr (Some q)
       ∧ Question_valid q
       ∧ correct_answers q = digit_token_values correct_str
       ∧ options q = omap json_text (record_options fields).
Proof.
  intros Hfield Hload. rewrite (parse_item_unfold d _ _ Hfield).
  unfold loadable in Hload. cbv zeta in *.
  repeat (apply andb_true_iff in Hload as [Hload ?]).
  apply negb_true_iff, bool_decide_eq_false in Hload.
  repeat match goal with
  | H : negb _ = true |- _ => apply negb_true_iff in H
  | H : bool_decide _ = true |- _ => apply bool_decide_eq_true in H
  | H : bool_decide _ = false |- _ => apply bool_decide_eq_false in H
  end.
  rewrite bool_decide_eq_false_2 by done.
  match goal with H : forallb token_converts _ = true |- _ => rewrite H end.
  simpl. rewrite bool_decide_eq_false_2 by done.
  rewrite question_text_closed.
  match goal with H : question_ok _ = true |- _ =>
    unfold question_ok in H;
    destruct (fields !! "question") as [[| | | |text| |]|]; try done;
    apply bool_decide_eq_true in H
  end.
  simpl.
  match goal with H : forallb is_str _ = true |- _ =>
    rewrite H; pose proof (length_omap_json_text _ H) as Hlen
  end.
  simpl. rewrite Question_new_inr.
  - simpl. eexists. split; [done|]. split; [|done].
    split; simpl; rewrite ?Hlen; [done|lia| |].
    + by apply size_ge_1.
    + done.
  - done.
  - rewrite Hlen. lia.
  - done.
  - by rewrite Hlen.
Qed.

Lemma parse_item_not_loadable d (fields : gmap string json)
    (correct_str : string) :
  default (JStr "") (fields !! "correct_answers") = JStr correct_str →
  loadable fields correct_str = false →
  parse_item d (JObj fields) = inr None
  ∨ ∃ e, parse_item d (JObj fields) = inl e ∧ caught e = true.
Proof.
  intros Hfield Hload. rewrite (parse_item_unfold d _ _ Hfield).
  unfold loadable in Hload. cbv zeta in *.
  case_bool_decide as Hshort; [by left|].
  destruct (forallb token_converts _); simpl; [|right; by eexists].
  case_bool_decide as Hempty; [by left|].
  rewrite question_text_closed. unfold question_ok in Hload.
  destruct (fields !! "question") as [[| | | |text| |]|]; simpl;
    try (right; by eexists).
  destruct (forallb is_str (record_options fields)) eqn:Hstr; simpl;
    [|right; by eexists].
  destruct (Question_new text _ _ d) as [e|q] eqn:Hnew; simpl.
  - right. apply Question_new_inl in Hnew as ->. by eexists.
  - exfalso. apply Question_new_inv in Hnew as (Ht & Ho & Hne & Hc).
    rewrite length_omap_json_text in Ho, Hc by done.
    simpl in Hload.
    rewrite (bool_decide_eq_true_2 _ Ht) in Hload.
    rewrite (bool_decide_eq_true_2 (length _ ≤ 6)%nat) in Hload by lia.
    rewrite (bool_decide_eq_true_2 (set_Forall _ _)) in Hload by done.
    done.
Qed.

Section LoaderFacts.
Context `{Random}.

Lemma process_item_loaded d item g q :
  parse_item d item = inr (Some q) →
  Question_valid q →
  process_item d item g
  = (Loaded (shuffled (draw g (length (options q))) q),
     advance g (length (options q))).
Proof.
  intros Hparse Hq. unfold process_item. rewrite Hparse.
  rewrite shuffle_options_shuffled; [done|apply draw_perm|].
  apply (valid_correct q Hq).
Qed.

Lemma process_item_skipped d item g :
  parse_item d item = inr None
  ∨ (∃ e, parse_item d item = inl e ∧ caught e = true) →
  process_item d item g = (Skipped, g).
Proof.
  unfold process_item. intros [->|(e & -> & He)]; [done|].
  simpl. by rewrite He.
Qed.

Lemma loadable_false_iff (fields : gmap string json) (correct_str : string) :
  loadable fields correct_str = false ↔ code_skip fields correct_str.
Proof.
  unfold loadable, code_skip. cbv zeta. split.
  - intros Hload.
    repeat (apply andb_false_iff in Hload as [Hload|Hload]).
    + apply negb_false_iff, bool_decide_eq_true in Hload. auto.
    + auto 10.
    + apply negb_false_iff, bool_decide_eq_true in Hload. auto.
    + auto 10.
    + auto 10.
    + apply bool_decide_eq_false in Hload. right; right; right; left. lia.
    + apply bool_decide_eq_false in Hload.
      apply not_set_Forall_Exists in Hload; [|apply _].
      destruct Hload as (i & Hi & Hbad). right; right; left. by exists i.
  - intros Hskip. apply not_true_iff_false. intros Hload.
    repeat (apply andb_true_iff in Hload as [Hload ?]).
    apply negb_true_iff, bool_decide_eq_false in Hload.
    repeat match goal with
    | H : negb _ = true |- _ => apply negb_true_iff in H
    | H : bool_decide _ = true |- _ => apply bool_decide_eq_true in H
    | H : bool_decide _ = false |- _ => apply bool_decide_eq_false in H
    end.
    destruct Hskip as [?|[?|[(i & Hi & Hbad)|[?|[?|[?|?]]]]]];
      try congruence; try lia.
    apply Hbad. auto.
Qed.

End LoaderFacts.

(** C6, as the code has it. For a record that is an object whose
    correct-answer field is a string (or is missing): the set holds the
    values of the trimmed tokens that are made of digits only, zero
    included, and a digit token that [int] refuses ends the record; the
    record is passed over exactly when that set is empty, or the option
    list has fewer than 3 entries, or a member of the set is out of range,
    or the option list has more than 6 entries or an entry that is not a
    string, or the question text is missing or fails its check, or a digit
    token does not convert; a record that is passed over never aborts the
    loop, which goes on with the remaining records. *)
Theorem record_skip_rule `{Random} (d : Difficulty)
    (fields : gmap string json) (correct_str : string) (g : rng)
    (rest : list json) (acc : list Question) :
  default (JStr "") (fields !! "correct_answers") = JStr correct_str →
  parse_correct_answers (JStr correct_str)
  = (if forallb token_converts (digit_tokens correct_str)
     then inr (digit_token_values correct_str)
     else inl ValueError)
  ∧ (fst (process_item d (JObj fields) g) = Skipped
     ∨ ∃ q, fst (process_item d (JObj fields) g) = Loaded q)
  ∧ (fst (process_item d (JObj fields) g) = Skipped
     ↔ code_skip fields correct_str)
  ∧ (fst (process_item d (JObj fields) g) = Skipped →
     parse_loop d (JObj fields :: rest) g acc = parse_loop d rest g acc).
Proof.
  intros Hfield. split; [apply parse_correct_answers_closed|].
  rewrite <- loadable_false_iff.
  destruct (loadable fields correct_str) eqn:Hload.
  - destruct (parse_item_loadable d fields correct_str Hfield Hload)
      as (q & Hparse & Hq & _).
    rewrite (process_item_loaded d _ g q Hparse Hq). simpl.
    split; [right; by eexists|]. split; [done|done].
  - pose proof (parse_item_not_loadable d fields correct_str Hfield Hload)
      as Hskip.
    simpl. rewrite (process_item_skipped d _ g Hskip). simpl.
    split; [by left|]. split; [done|done].
Qed.

Lemma record_skip_rule_witness :
  parse_correct_answers (JStr "0,1")
  = (if forallb token_converts (digit_tokens "0,1")
     then inr (digit_token_values "0,1")
     else inl ValueError)
  ∧ (fst (process_item (H:=rotation_random) Basic (JObj sample_fields) 1)
     = Skipped
     ∨ ∃ q, fst (process_item (H:=rotation_random) Basic
                   (JObj sample_fields) 1) = Loaded q)
  ∧ (fst (process_item (H:=rotation_random) Basic (JObj sample_fields) 1)
     = Skipped
     ↔ code_skip sample_fields "0,1")
  ∧ (fst (process_item (H:=rotation_random) Basic (JObj sample_fields) 1)
     = Skipped →
     parse_loop (H:=rotation_random) Basic (JObj sample_fields :: sample_bank)
                1 []
     = parse_loop (H:=rotation_random) Basic sample_bank 1 []).
Proof.
  apply (record_skip_rule (H:=rotation_random) Basic sample_fields "0,1").
  reflexivity.
Defined.

(** C6 as stated fails. The token ["0"] puts 0 in the set, and a record
    with seven options is passed over although its set is not empty, it
    has at least 3 options and its only index is in range. *)
Lemma skip_claim_fails :
  (parse_correct_answers (JStr "0,1") = inr {[0; 1]}
   ∧ spec_correct_set "0,1" = {[1]})
  ∧ (fst (process_item (H:=rotation_random) Basic
            (JObj seven_options_fields) 1) = Skipped
     ∧ parse_correct_answers (JStr "1") = inr (spec_correct_set "1")
     ∧ ¬ spec_skip (record_options seven_options_fields) "1").
Proof.
  split; [split; by vm_compute|].
  split; [by vm_compute|]. split; [by vm_compute|].
  assert (spec_correct_set "1" = {[1]}) as Hset by (by vm_compute).
  unfold spec_skip. rewrite Hset.
  intros [Hempty|[Hshort|(i & Hi & Hbad)]].
  - by apply (non_empty_singleton_L (C:=gset Z) 1).
  - vm_compute in Hshort. lia.
  - apply elem_of_singleton in Hi as ->. apply Hbad. vm_compute. done.
Qed.

(** A record whose correct-answer field is a number is not passed over:
    the [AttributeError] of [split] is not among the caught exceptions and
    ends the whole load. *)
Lemma integer_field_aborts :
  load_questions (H:=rotation_random) (λ _, None)
    (JArr (integer_field_record :: sample_bank)) Basic None 1
  = inl AttributeError.
Proof. by vm_compute. Qed.

(** The bank of the specification gives its five valid questions. *)
Example scenario_bank_loads :
  ∃ l, load_questions (H:=rotation_random) (λ _, None) (JArr scenario_bank)
         Basic (Some 7) 1 = inr l
       ∧ question <$> l = ["Q3"; "Q4"; "Q5"; "Q1"; "Q2"].
Proof. eexists. split; by vm_compute. Qed.

Lemma parse_item_valid d item q :
  parse_item d item = inr (Some q) → Question_valid q.
Proof.
  destruct item as [| | | | | |fields]; try done.
  destruct (default (JStr "") (fields !! "correct_answers"))
    as [| | | |correct_str| |] eqn:Hfield.
  5: {
    destruct (loadable fields correct_str) eqn:Hload.
    - destruct (parse_item_loadable d fields correct_str Hfield Hload)
        as (q' & Hparse & Hq & _).
      rewrite Hparse. by intros [= <-].
    - destruct (parse_item_not_loadable d fields correct_str Hfield Hload)
        as [->|(e & -> & _)]; done. }
  all: unfold parse_item; cbn [json_get mbind result_bind mret result_ret].
  all: destruct (default (JArr []) (fields !! "options"));
    try done; case_bool_decide; try done; by rewrite Hfield.
Qed.

Section Ordering.
Context `{Random}.

(** The survivors of two runs over the same records are the same records,
    in the same order, whatever the generator states. *)
Lemma parse_loop_same_records d raw : ∀ g1 g2 acc1 acc2 qs1 qs2 g1' g2',
  Forall2 same_record acc1 acc2 →
  parse_loop d raw g1 acc1 = inr (qs1, g1') →
  parse_loop d raw g2 acc2 = inr (qs2, g2') →
  Forall2 same_record qs1 qs2.
Proof.
  induction raw as [|item raw IH]; intros g1 g2 acc1 acc2 qs1 qs2 g1' g2' Hacc.
  - simpl. by intros [= <- <-] [= <- <-].
  - simpl. destruct (parse_item d item) as [e|[q|]] eqn:Hparse.
    + unfold process_item. rewrite Hparse. simpl.
      destruct (caught e); [|done]. by apply IH.
    + pose proof (parse_item_valid d item q Hparse) as Hq.
      rewrite !(process_item_loaded d item _ q Hparse Hq).
      apply IH. apply Forall2_app; [done|].
      constructor; [|constructor]. done.
    + rewrite !process_item_skipped by (by left). by apply IH.
Qed.

(** Whether the loop ends by an exception does not depend on the
    generator either. *)
Lemma parse_loop_same_failure d raw : ∀ g1 g2 acc1 acc2 e,
  parse_loop d raw g1 acc1 = inl e → parse_loop d raw g2 acc2 = inl e.
Proof.
  induction raw as [|item raw IH]; intros g1 g2 acc1 acc2 e; [done|].
  simpl. destruct (parse_item d item) as [e'|[q|]] eqn:Hparse.
  - unfold process_item. rewrite Hparse. simpl.
    destruct (caught e'); [apply IH|done].
  - pose proof (parse_item_valid d item q Hparse) as Hq.
    rewrite !(process_item_loaded d item _ q Hparse Hq). apply IH.
  - rewrite !process_item_skipped by (by left). apply IH.
Qed.

Lemma reorder_Forall2 {A} (R : A → A → Prop) (p : list Z) (l1 l2 : list A) :
  Forall2 R l1 l2 → Forall2 R (reorder p l1) (reorder p l2).
Proof.
  intros Hl. unfold reorder. induction p as [|i p IH]; csimpl; [done|].
  pose proof (proj1 (Forall2_lookup R l1 l2) Hl (Z.to_nat i)) as Hi.
  destruct Hi; [constructor; done|done].
Qed.

Lemma slice_to_Forall2 {A} (R : A → A → Prop) (l1 l2 : list A) stop :
  Forall2 R l1 l2 → Forall2 R (slice_to l1 stop) (slice_to l2 stop).
Proof.
  intros Hl. unfold slice_to. rewrite (Forall2_length _ _ _ Hl).
  case_bool_decide; by apply Forall2_take.
Qed.

Lemma select_questions_same_records target uid g1 g2 qs1 qs2 :
  uid ≠ 0 →
  Forall2 same_record qs1 qs2 →
  Forall2 same_record (select_questions target (Some uid) g1 qs1)
                      (select_questions target (Some uid) g2 qs2).
Proof.
  intros Huid Hqs. unfold select_questions.
  destruct Hqs as [|q1 q2 qs1 qs2 Hq Hqs]; [done|].
  assert (Forall2 same_record (q1 :: qs1) (q2 :: qs2)) as Hall
    by (by constructor).
  unfold ordering, ordering_state.
  rewrite !(bool_decide_eq_true_2 (uid ≠ 0)) by done.
  rewrite <- (Forall2_length _ _ _ Hall).
  pose proof (reorder_Forall2 same_record
    (draw (seed uid) (length (q1 :: qs1))) _ _ Hall) as Hre.
  rewrite (Forall2_length _ _ _ Hre).
  case_bool_decide; [done|]. by apply slice_to_Forall2.
Qed.

End Ordering.

(** C8. Two runs of the loader over the same records with the same
    non-zero user id order the surviving questions by the same
    arrangement, whatever state the generator is in at each call. Either
    both runs end by the same exception, or both return: then the
    survivors are the same records in the same order, each run reorders
    them by the arrangement drawn from the seeded state, and the two
    results list the same records in the same order. *)
Theorem seeded_ordering_repeats `{Random}
    (difficulty_questions : Difficulty → option Z) (raw : list json)
    (d : Difficulty) (uid : Z) (g1 g2 : rng) :
  uid ≠ 0 →
  (∃ e,
     load_questions difficulty_questions (JArr raw) d (Some uid) g1 = inl e
     ∧ load_questions difficulty_questions (JArr raw) d (Some uid) g2
       = inl e)
  ∨ (∃ qs1 qs2 g1' g2' l1 l2,
       parse_loop d raw g1 [] = inr (qs1, g1')
       ∧ parse_loop d raw g2 [] = inr (qs2, g2')
       ∧ Forall2 same_record qs1 qs2
       ∧ ordering (Some uid) g1' (length qs1) = draw (seed uid) (length qs1)
       ∧ ordering (Some uid) g2' (length qs2) = draw (seed uid) (length qs1)
       ∧ draw (seed uid) (length qs1) ≡ₚ range (length qs1)
       ∧ load_questions difficulty_questions (JArr raw) d (Some uid) g1
         = inr l1
       ∧ load_questions difficulty_questions (JArr raw) d (Some uid) g2
         = inr l2
       ∧ Forall2 same_record l1 l2).
Proof.
  intros Huid. unfold load_questions.
  destruct (parse_loop d raw g1 []) as [e|[qs1 g1']] eqn:Hrun1.
  { left. exists e.
    by rewrite (parse_loop_same_failure d raw g1 g2 [] [] e Hrun1). }
  destruct (parse_loop d raw g2 []) as [e|[qs2 g2']] eqn:Hrun2.
  { pose proof (parse_loop_same_failure d raw g2 g1 [] [] e Hrun2) as Hbad.
    congruence. }
  right.
  assert (Forall2 same_record qs1 qs2) as Hqs.
  { eapply parse_loop_same_records; [|exact Hrun1|exact Hrun2]. done. }
  eexists qs1, qs2, g1', g2', _, _.
  split; [done|]. split; [done|]. split; [done|].
  unfold ordering, ordering_state.
  rewrite !(bool_decide_eq_true_2 (uid ≠ 0)) by done.
  split; [done|]. split; [by rewrite (Forall2_length _ _ _ Hqs)|].
  split; [apply draw_perm|].
  simpl. split; [done|]. split; [done|].
  by apply select_questions_same_records.
Qed.

Lemma seeded_ordering_repeats_witness :
  (∃ e,
     load_questions (H:=rotation_random) (λ _, Some 2) (JArr sample_bank)
                    Basic (Some 7) 1 = inl e
     ∧ load_questions (H:=rotation_random) (λ _, Some 2) (JArr sample_bank)
                      Basic (Some 7) 10 = inl e)
  ∨ (∃ qs1 qs2 g1' g2' l1 l2,
       parse_loop (H:=rotation_random) Basic sample_bank 1 []
       = inr (qs1, g1')
       ∧ parse_loop (H:=rotation_random) Basic sample_bank 10 []
         = inr (qs2, g2')
       ∧ Forall2 same_record qs1 qs2
       ∧ ordering (H:=rotation_random) (Some 7) g1' (length qs1)
         = draw (Random:=rotation_random) (seed 7) (length qs1)
       ∧ ordering (H:=rotation_random) (Some 7) g2' (length qs2)
         = draw (Random:=rotation_random) (seed 7) (length qs1)
       ∧ draw (Random:=rotation_random) (seed 7) (length qs1)
         ≡ₚ range (length qs1)
       ∧ load_questions (H:=rotation_random) (λ _, Some 2)
           (JArr sample_bank) Basic (Some 7) 1 = inr l1
       ∧ load_questions (H:=rotation_random) (λ _, Some 2)
           (JArr sample_bank) Basic (Some 7) 10 = inr l2
       ∧ Forall2 same_record l1 l2).
Proof.
  apply (seeded_ordering_repeats (H:=rotation_random) (λ _, Some 2)
           sample_bank Basic 7 1 10).
  lia.
Defined.

(** * Further properties of the code *)

(** ** Shuffling, position by position *)

Lemma omap_bind_lookup {A B} (f : A → option B) (l : list A) (p : list Z) :
  Forall (λ x, is_Some (f x)) l →
  omap (λ i, omap f l !! Z.to_nat i) p
  = omap f (omap (λ i, l !! Z.to_nat i) p).
Proof.
  intros Hl. induction p as [|i p IH]; [done|]. csimpl.
  rewrite lookup_omap_total by done.
  destruct (l !! Z.to_nat i) as [x|]; csimpl; [|done].
  destruct (f x); by rewrite IH.
Qed.

Lemma reorder_perm {A} (p : list Z) (l : list A) :
  p ≡ₚ range (length l) → reorder p l ≡ₚ l.
Proof. intros Hp. unfold reorder. by rewrite Hp, omap_lookup_range. Qed.

Lemma lookup_reorder_range (p l : list Z) (j : nat) :
  p ≡ₚ range (length l) →
  reorder p l !! j = p !! j ≫= λ i, l !! Z.to_nat i.
Proof.
  intros Hp. unfold reorder. apply lookup_omap_total.
  apply Forall_forall. intros i Hi. rewrite Hp in Hi.
  apply elem_of_range in Hi. apply lookup_lt_is_Some_2. lia.
Qed.

(** X1. After a shuffle of a valid question the stored mapping is the
    arrangement that was drawn, and it reads "new place to old place": the
    text at each new place is the text that stood at the old place, and
    the new place is marked correct exactly when the old place was. *)
Theorem shuffle_moves_marks_with_texts (q : Question) (indices : list Z) :
  Question_valid q →
  indices ≡ₚ range (length (options q)) →
  ∃ q', shuffle_options indices q = inr q'
        ∧ shuffle_mapping q' = Some indices
        ∧ ∀ (j : nat) (old : Z),
            indices !! j = Some old →
            options q' !! j = options q !! Z.to_nat old
            ∧ (Z.of_nat j + 1 ∈ correct_answers q'
               ↔ old + 1 ∈ correct_answers q).
Proof.
  intros Hq Hperm. pose proof (valid_correct q Hq) as Hc.
  exists (shuffled indices q).
  split; [by apply shuffle_options_shuffled|]. split; [done|].
  intros j old Hj. split.
  - simpl. rewrite lookup_omap_total, Hj; [done|].
    apply Forall_forall. intros i Hi%(indices_in_range indices q Hperm).
    apply lookup_lt_is_Some_2. lia.
  - rewrite (elem_of_shuffled_correct indices q). split.
    + intros (c & Hin & [_ Hlk]%(new_position_Some indices q Hperm)).
      replace (Z.to_nat (Z.of_nat j + 1 - 1)) with j in Hlk by lia.
      assert (old = c - 1) as -> by congruence.
      by replace (c - 1 + 1) with c by lia.
    + intros Hin. exists (old + 1). split; [done|].
      apply (new_position_Some indices q Hperm). split; [lia|].
      replace (Z.to_nat (Z.of_nat j + 1 - 1)) with j by lia.
      by replace (old + 1 - 1) with old by lia.
Qed.

Lemma shuffle_moves_marks_with_texts_witness :
  ∃ q', shuffle_options [2; 0; 3; 1] sample_question = inr q'
        ∧ shuffle_mapping q' = Some [2; 0; 3; 1]
        ∧ ∀ (j : nat) (old : Z),
            [2; 0; 3; 1] !! j = Some old →
            options q' !! j = options sample_question !! Z.to_nat old
            ∧ (Z.of_nat j + 1 ∈ correct_answers q'
               ↔ old + 1 ∈ correct_answers sample_question).
Proof.
  apply (shuffle_moves_marks_with_texts sample_question [2; 0; 3; 1]).
  - exact sample_question_valid.
  - apply (bool_decide_unpack _). by vm_compute.
Defined.

Lemma shuffle_many_run draws : ∀ q,
  Question_valid q →
  Forall (λ indices, indices ≡ₚ range (length (options q))) draws →
  ∃ q', shuffle_many draws q = inr q'
        ∧ Question_valid q'
        ∧ question q' = question q
        ∧ difficulty q' = difficulty q
        ∧ options q' ≡ₚ options q
        ∧ (draws ≠ [] →
           original_options q'
           = Some (default (options q) (original_options q))).
Proof.
  induction draws as [|indices draws IH]; intros q Hq Hdraws; simpl.
  - exists q. repeat (split; [done|]). intros Hne. by destruct Hne.
  - apply Forall_cons in Hdraws as [Hperm Hdraws].
    pose proof (valid_correct q Hq) as Hc.
    rewrite (shuffle_options_shuffled indices q Hperm Hc); simpl.
    destruct (IH (shuffled indices q))
      as (q' & Hrun & Hv & Htext & Hdiff & Hopts & Horig).
    + by apply shuffled_valid.
    + by rewrite shuffled_options_length.
    + exists q'. split; [done|]. split; [done|]. split; [done|].
      split; [done|]. split.
      * by rewrite Hopts, shuffled_options_perm.
      * intros _. destruct draws as [|next draws].
        -- simpl in Hrun. by injection Hrun as <-.
        -- by rewrite Horig.
Qed.

(** X2. The first shuffle snapshots the options into [original_options];
    later shuffles never replace the snapshot. After any non-empty run of
    shuffles of a question that was never shuffled, [original_options] is
    the option list the question was built with, and the current options
    are a permutation of it. *)
Theorem original_options_is_first_order (q : Question)
    (draws : list (list Z)) :
  Question_valid q →
  original_options q = None →
  draws ≠ [] →
  Forall (λ indices, indices ≡ₚ range (length (options q))) draws →
  ∃ q', shuffle_many draws q = inr q'
        ∧ original_options q' = Some (options q)
        ∧ options q' ≡ₚ options q.
Proof.
  intros Hq Hnone Hne Hdraws.
  destruct (shuffle_many_run draws q Hq Hdraws)
    as (q' & Hrun & _ & _ & _ & Hopts & Horig).
  exists q'. split; [done|]. split; [|done].
  rewrite Horig by done. by rewrite Hnone.
Qed.

Lemma original_options_is_first_order_witness :
  ∃ q', shuffle_many [[2; 0; 3; 1]; [3; 2; 1; 0]] sample_question = inr q'
        ∧ original_options q' = Some (options sample_question)
        ∧ options q' ≡ₚ options sample_question.
Proof.
  apply original_options_is_first_order.
  - exact sample_question_valid.
  - reflexivity.
  - discriminate.
  - repeat constructor; apply (bool_decide_unpack _); by vm_compute.
Defined.

(** X3. Shuffling keeps every constraint of the construction, although
    nothing validates the object again: after any run of shuffles the
    question still satisfies the length bounds and has its correct
    positions within [1 .. len(options)], and its text and difficulty are
    the ones it had. *)
Theorem shuffles_keep_question_valid (q : Question)
    (draws : list (list Z)) :
  Question_valid q →
  Forall (λ indices, indices ≡ₚ range (length (options q))) draws →
  ∃ q', shuffle_many draws q = inr q'
        ∧ Question_valid q'
        ∧ question q' = question q
        ∧ difficulty q' = difficulty q
        ∧ length (options q') = length (options q).
Proof.
  intros Hq Hdraws.
  destruct (shuffle_many_run draws q Hq Hdraws)
    as (q' & Hrun & Hv & Htext & Hdiff & Hopts & _).
  exists q'. do 4 (split; [done|]). by rewrite Hopts.
Qed.

Lemma shuffles_keep_question_valid_witness :
  ∃ q', shuffle_many [[2; 0; 3; 1]; [3; 2; 1; 0]] sample_question = inr q'
        ∧ Question_valid q'
        ∧ question q' = question sample_question
        ∧ difficulty q' = difficulty sample_question
        ∧ length (options q') = length (options sample_question).
Proof.
  apply shuffles_keep_question_valid.
  - exact sample_question_valid.
  - repeat constructor; apply (bool_decide_unpack _); by vm_compute.
Defined.

(** X4. Two shuffles in a row amount to one shuffle by the composed
    arrangement, as far as the options and the correct positions go; the
    stored mapping is the arrangement of the last call only. *)
Theorem two_shuffles_compose (q : Question) (i1 i2 : list Z) :
  Question_valid q →
  i1 ≡ₚ range (length (options q)) →
  i2 ≡ₚ range (length (options q)) →
  ∃ q12 qc,
    shuffle_many [i1; i2] q = inr q12
    ∧ reorder i2 i1 ≡ₚ range (length (options q))
    ∧ shuffle_options (reorder i2 i1) q = inr qc
    ∧ options q12 = options qc
    ∧ correct_answers q12 = correct_answers qc
    ∧ shuffle_mapping q12 = Some i2.
Proof.
  intros Hq H1 H2. pose proof (valid_correct q Hq) as Hc.
  pose proof (shuffled_valid i1 q H1 Hc Hq) as Hq1.
  pose proof (valid_correct _ Hq1) as Hc1.
  assert (i2 ≡ₚ range (length (options (shuffled i1 q)))) as H2'.
  { by rewrite shuffled_options_length. }
  assert (i2 ≡ₚ range (length i1)) as H2i.
  { by rewrite (indices_length i1 q H1). }
  assert (reorder i2 i1 ≡ₚ range (length (options q))) as H12.
  { by rewrite (reorder_perm i2 i1 H2i). }
  exists (shuffled i2 (shuffled i1 q)), (shuffled (reorder i2 i1) q).
  split.
  { simpl. rewrite (shuffle_options_shuffled i1 q H1 Hc). simpl.
    by rewrite (shuffle_options_shuffled i2 _ H2' Hc1). }
  split; [done|].
  split; [by apply shuffle_options_shuffled|].
  split; [|split; [|done]].
  - simpl. apply omap_bind_lookup, Forall_forall.
    intros i Hi%(indices_in_range i1 q H1).
    apply lookup_lt_is_Some_2. lia.
  - apply set_eq. intros c'.
    rewrite (elem_of_shuffled_correct i2), (elem_of_shuffled_correct _ q).
    split.
    + intros (c1 & (c & Hin & Hp1)%elem_of_shuffled_correct & Hp2).
      apply (new_position_Some i1 q H1) in Hp1 as [Hc1' Hl1].
      apply (new_position_Some i2 _ H2') in Hp2 as [Hc' Hl2].
      exists c. split; [done|].
      apply (new_position_Some _ q H12). split; [done|].
      rewrite (lookup_reorder_range i2 i1 _ H2i), Hl2. done.
    + intros (c & Hin & [Hc' Hl]%(new_position_Some _ q H12)).
      rewrite (lookup_reorder_range i2 i1 _ H2i) in Hl.
      destruct (i2 !! Z.to_nat (c' - 1)) as [k|] eqn:Hk; [|done].
      simpl in Hl.
      assert (0 ≤ k) as Hk0.
      { apply list_elem_of_lookup_2, (indices_in_range i2 _ H2') in Hk.
        lia. }
      exists (k + 1). split.
      * apply elem_of_shuffled_correct. exists c. split; [done|].
        apply (new_position_Some i1 q H1). split; [lia|].
        by replace (k + 1 - 1) with k by lia.
      * apply (new_position_Some i2 _ H2'). split; [done|].
        by replace (k + 1 - 1) with k by lia.
Qed.

Lemma two_shuffles_compose_witness :
  ∃ q12 qc,
    shuffle_many [[2; 0; 3; 1]; [3; 2; 1; 0]] sample_question = inr q12
    ∧ reorder [3; 2; 1; 0] [2; 0; 3; 1]
      ≡ₚ range (length (options sample_question))
    ∧ shuffle_options (reorder [3; 2; 1; 0] [2; 0; 3; 1]) sample_question
      = inr qc
    ∧ options q12 = options qc
    ∧ correct_answers q12 = correct_answers qc
    ∧ shuffle_mapping q12 = Some [3; 2; 1; 0].
Proof.
  apply two_shuffles_compose.
  - exact sample_question_valid.
  - apply (bool_decide_unpack _). by vm_compute.
  - apply (bool_decide_unpack _). by vm_compute.
Defined.

Lemma size_within_positions (c : gset Z) (n : nat) :
  (∀ i, i ∈ c → 1 ≤ i ≤ Z.of_nat n) → (size c ≤ n)%nat.
Proof.
  intros Hc.
  assert (c ⊆ list_to_set (seqZ 1 (Z.of_nat n))) as Hsub.
  { intros i Hi. apply elem_of_list_to_set, elem_of_seqZ.
    specialize (Hc i Hi). lia. }
  apply subseteq_size in Hsub.
  rewrite size_list_to_set in Hsub by apply NoDup_seqZ.
  rewrite length_seqZ in Hsub. lia.
Qed.

(** X5. A question that the constructor returns carries the arguments
    unchanged, was never shuffled, has between 3 and 6 options, and has at
    least one and at most [len(options)] correct positions. *)
Theorem constructed_question_bounds (text : string) (opts : list string)
    (correct : gset Z) (d : Difficulty) (q : Question) :
  Question_new text opts correct d = inr q →
  q = {| question := text; options := opts; correct_answers := correct;
         difficulty := d; original_options := None;
         shuffle_mapping := None |}
  ∧ (3 ≤ length (options q) ≤ 6)%nat
  ∧ (1 ≤ size (correct_answers q) ≤ length (options q))%nat.
Proof.
  intros Hnew.
  destruct (Question_new_inv _ _ _ _ _ Hnew) as (Ht & Ho & Hne & Hc).
  rewrite (Question_new_inr text opts correct d Ht Ho Hne Hc) in Hnew.
  injection Hnew as <-. simpl. split; [done|]. split; [done|].
  split; [by apply size_ge_1|by apply size_within_positions].
Qed.

Lemma constructed_question_bounds_witness :
  sample_question
  = {| question := "Q"; options := ["A"; "B"; "C"; "D"];
       correct_answers := {[1; 3]}; difficulty := Basic;
       original_options := None; shuffle_mapping := None |}
  ∧ (3 ≤ length (options sample_question) ≤ 6)%nat
  ∧ (1 ≤ size (correct_answers sample_question)
     ≤ length (options sample_question))%nat.
Proof.
  apply (constructed_question_bounds "Q" ["A"; "B"; "C"; "D"] {[1; 3]} Basic).
  by vm_compute.
Defined.

(** X6. The constructor raises exactly when a constraint fails: the text
    is empty or longer than 2000 characters, there are fewer than 3 or
    more than 6 options, no correct position is given, or some correct
    position lies outside [1 .. len(options)]; and what it raises is
    always [ValueError]. *)
Theorem construction_fails_iff (text : string) (opts : list string)
    (correct : gset Z) (d : Difficulty) (e : exn) :
  Question_new text opts correct d = inl e
  ↔ e = ValueError
    ∧ (¬ (1 ≤ String.length text ≤ 2000)%nat
       ∨ ¬ (3 ≤ length opts ≤ 6)%nat
       ∨ correct = ∅
       ∨ ∃ i, i ∈ correct ∧ ¬ (1 ≤ i ≤ Z.of_nat (length opts))).
Proof.
  split.
  - intros Hnew. split; [by eapply Question_new_inl|].
    destruct (decide (1 ≤ String.length text ≤ 2000)%nat) as [Ht|]; [|auto].
    destruct (decide (3 ≤ length opts ≤ 6)%nat) as [Ho|]; [|auto].
    destruct (decide (correct = ∅)) as [|Hne]; [auto|].
    destruct (decide (set_Forall
      (λ i, 1 ≤ i ≤ Z.of_nat (length opts)) correct)) as [Hc|Hc].
    + by rewrite (Question_new_inr text opts correct d Ht Ho Hne Hc) in Hnew.
    + apply not_set_Forall_Exists in Hc; [|apply _].
      destruct Hc as (i & Hi & Hbad). right; right; right. by exists i.
  - intros [-> Hbad].
    destruct (Question_new text opts correct d) as [e|q] eqn:Hnew.
    + by rewrite (Question_new_inl _ _ _ _ _ Hnew).
    + exfalso.
      destruct (Question_new_inv _ _ _ _ _ Hnew) as (Ht & Ho & Hne & Hc).
      destruct Hbad as [?|[?|[?|(i & Hi & Hi')]]]; try done.
      by apply Hi', Hc.
Qed.

(** ** Sessions and scores *)

(** X7. A session is refused exactly when an index is passed in, the
    question list is not empty and the index is outside
    [0 .. len(questions)-1], and then by [ValueError]; with an empty
    question list any index is accepted. A session that is returned starts
    with no selection, no history and zeroed results. *)
Theorem session_construction (qs : list Question) (idx : option Z)
    (now : float) :
  ((∃ e, CurrentTestState_new qs idx now = inl e)
   ↔ ∃ v, idx = Some v ∧ qs ≠ []
          ∧ ¬ (0 ≤ v < Z.of_nat (length qs)))
  ∧ (∀ e, CurrentTestState_new qs idx now = inl e → e = ValueError)
  ∧ (∀ s, CurrentTestState_new qs idx now = inr s →
          s = {| questions := qs;
                 current_index := default 0 idx;
                 selected_answers := ∅;
                 answers_history := ∅;
                 start_time := now;
                 correct_count := 0;
                 total_questions := 0;
                 percentage := Qc_of_Z 0;
                 grade := "";
                 elapsed_time := "" |}).
Proof.
  unfold CurrentTestState_new. destruct idx as [v|]; simpl.
  - unfold validate_index.
    destruct (decide (qs = [])) as [->|Hne]; simpl.
    { split; [|split; [done|by intros s [= <-]]].
      split; [by intros [e ?]|]. intros (v' & _ & Hbad & _). done. }
    rewrite (bool_decide_eq_false_2 (qs = [])) by done. simpl.
    destruct (decide (0 ≤ v < Z.of_nat (length qs))) as [Hin|Hout].
    + rewrite (bool_decide_eq_false_2 (v < 0)) by lia.
      rewrite (bool_decide_eq_false_2 (_ ≤ v)) by lia. simpl.
      split; [|split; [done|by intros s [= <-]]].
      split; [by intros [e ?]|]. intros (v' & [= <-] & _ & Hbad). done.
    + assert (bool_decide (v < 0) || bool_decide (Z.of_nat (length qs) ≤ v)
              = true) as ->.
      { apply orb_true_iff. rewrite !bool_decide_eq_true. lia. }
      simpl. split; [|split; [by intros e [= <-]|done]].
      split; [|by eexists]. intros _. by exists v.
  - split; [|split; [done|by intros s [= <-]]].
    split; [by intros [e ?]|]. by intros (v & ? & _).
Qed.

Lemma filter_none_in {A} (P : A → Prop) `{!∀ x, Decision (P x)}
    (l : list A) :
  (∀ x, x ∈ l → ¬ P x) → filter P l = [].
Proof.
  induction l as [|a l IH]; intros HP; [done|].
  rewrite filter_cons_False by (apply HP; by left).
  apply IH. intros x Hx. apply HP. by right.
Qed.

Lemma filter_all_in {A} (P : A → Prop) `{!∀ x, Decision (P x)}
    (l : list A) :
  (∀ x, x ∈ l → P x) → filter P l = l.
Proof.
  induction l as [|a l IH]; intros HP; [done|].
  rewrite filter_cons_True by (apply HP; by left).
  f_equal. apply IH. intros x Hx. apply HP. by right.
Qed.

Lemma spec_correct_count_bounds history qs :
  0 ≤ spec_correct_count history qs ≤ Z.of_nat (length qs).
Proof.
  unfold spec_correct_count. split; [lia|].
  apply inj_le. etransitivity; [apply length_filter|].
  by rewrite length_range.
Qed.

Lemma Qc_of_Z_nonneg (n : Z) : 0 ≤ n → (0 ≤ Qc_of_Z n)%Qc.
Proof.
  intros Hn. rewrite <- Z2Qc_inj_0. exact (proj1 (Z2Qc_inj_le 0 n) Hn).
Qed.

Lemma percentage_of_mono (c c' t : Z) :
  c ≤ c' → (percentage_of c t ≤ percentage_of c' t)%Qc.
Proof.
  intros Hc. unfold percentage_of.
  case_bool_decide as Ht; [|apply Qcle_refl].
  apply Qcmult_le_mono_nonneg_r; [by apply Qc_of_Z_nonneg|].
  apply Qcmult_le_mono_nonneg_r; [|exact (proj1 (Z2Qc_inj_le c c') Hc)].
  apply Qclt_le_weak, Qcinv_pos. rewrite <- Z2Qc_inj_0.
  apply (proj1 (Z2Qc_inj_lt 0 t)). lia.
Qed.

Lemma percentage_of_full (t : Z) :
  0 < t → percentage_of t t = Qc_of_Z 100.
Proof.
  intros Ht. unfold percentage_of. rewrite bool_decide_eq_true_2 by lia.
  unfold Qcdiv. rewrite Qcmult_inv_r, Qcmult_1_l; [done|].
  rewrite <- Z2Qc_inj_0. intros Heq%Z2Qc_inj. lia.
Qed.

Lemma percentage_of_none (t : Z) : percentage_of 0 t = Qc_of_Z 0.
Proof.
  unfold percentage_of. case_bool_decide; [|done].
  unfold Qcdiv. by rewrite Z2Qc_inj_0, !Qcmult_0_l.
Qed.

(** X8. Whatever the history holds, the number of correct answers lies
    between 0 and the number of questions, and the percentage between 0
    and 100. *)
Theorem score_bounds (now : float) (s : CurrentTestState) :
  let r := calculate_results now s in
  0 ≤ correct_count r ≤ total_questions r
  ∧ (Qc_of_Z 0 ≤ percentage r ≤ Qc_of_Z 100)%Qc.
Proof.
  simpl. rewrite count_correct_spec.
  pose proof (spec_correct_count_bounds (answers_history s) (questions s))
    as [Hlo Hhi].
  split; [done|]. split.
  - rewrite <- (percentage_of_none (Z.of_nat (length (questions s)))).
    by apply percentage_of_mono.
  - destruct (decide (0 < Z.of_nat (length (questions s)))) as [Hpos|Hz].
    + rewrite <- (percentage_of_full _ Hpos). by apply percentage_of_mono.
    + unfold percentage_of. rewrite bool_decide_eq_false_2 by lia.
      apply (proj1 (Z2Qc_inj_le 0 100)). lia.
Qed.

(** X9. A question without a history entry is never counted: when every
    question has at least one correct position and no index of
    [0 .. len(questions)-1] has an entry, the count and the percentage are
    0 and the grade is the lowest. *)
Theorem unanswered_scores_nothing (now : float) (s : CurrentTestState) :
  Forall Question_valid (questions s) →
  (∀ idx, 0 ≤ idx < Z.of_nat (length (questions s)) →
          answers_history s !! idx = None) →
  let r := calculate_results now s in
  correct_count r = 0
  ∧ percentage r = Qc_of_Z 0
  ∧ grade r = grade_unsatisfactory.
Proof.
  intros Hvalid Hnone. simpl. rewrite count_correct_spec.
  assert (spec_correct_count (answers_history s) (questions s) = 0) as ->.
  { unfold spec_correct_count.
    rewrite filter_none_in; [done|].
    intros idx Hidx%elem_of_range.
    rewrite Hnone by done. simpl.
    destruct (questions s !! Z.to_nat idx) as [q|] eqn:Hq; [|done].
    simpl. intros [= Hempty].
    apply (Forall_lookup_1 _ _ _ _ Hvalid) in Hq.
    pose proof (valid_nonempty q Hq) as Hsize.
    rewrite Hempty, size_empty in Hsize. lia. }
  rewrite percentage_of_none. split; [done|]. split; [done|].
  by vm_compute.
Qed.

Lemma unanswered_scores_nothing_witness :
  let r := calculate_results (Qc_of_Z 5) sample_new_session in
  correct_count r = 0
  ∧ percentage r = Qc_of_Z 0
  ∧ grade r = grade_unsatisfactory.
Proof.
  apply (unanswered_scores_nothing (Qc_of_Z 5) sample_new_session).
  - repeat (apply Forall_cons_2; [exact sample_question_valid|]).
    apply Forall_nil_2.
  - intros idx _. apply lookup_empty.
Defined.

(** X10. When the history entry of every question equals its correct
    positions and there is at least one question, the count is the number
    of questions, the percentage is 100 and the grade is the highest. *)
Theorem all_right_scores_full (now : float) (s : CurrentTestState) :
  questions s ≠ [] →
  (∀ (idx : nat) q, questions s !! idx = Some q →
     answers_history s !! Z.of_nat idx = Some (correct_answers q)) →
  let r := calculate_results now s in
  correct_count r = total_questions r
  ∧ percentage r = Qc_of_Z 100
  ∧ grade r = grade_excellent.
Proof.
  intros Hne Hall. simpl. rewrite count_correct_spec.
  assert (spec_correct_count (answers_history s) (questions s)
          = Z.of_nat (length (questions s))) as ->.
  { unfold spec_correct_count.
    rewrite filter_all_in.
    - by rewrite length_range.
    - intros idx Hidx%elem_of_range.
      destruct (lookup_lt_is_Some_2 (questions s) (Z.to_nat idx))
        as [q Hq]; [lia|].
      rewrite Hq. simpl. specialize (Hall _ _ Hq).
      rewrite Z2Nat.id in Hall by lia. by rewrite Hall. }
  rewrite percentage_of_full.
  - split; [done|]. split; [done|]. by vm_compute.
  - destruct (questions s); [done|]. simpl. lia.
Qed.

Lemma all_right_scores_full_witness :
  let s := set_answers_history
             {[0 := {[1; 3]}; 1 := {[1; 3]}; 2 := {[1; 3]}]}
             sample_session in
  let r := calculate_results (Qc_of_Z 5) s in
  correct_count r = total_questions r
  ∧ percentage r = Qc_of_Z 100
  ∧ grade r = grade_excellent.
Proof.
  apply (all_right_scores_full (Qc_of_Z 5)
           (set_answers_history
              {[0 := {[1; 3]}; 1 := {[1; 3]}; 2 := {[1; 3]}]}
              sample_session)).
  - discriminate.
  - intros [|[|[|idx]]] q [= <-]; by vm_compute.
Defined.

Lemma run_op_same_inputs op s1 s2 :
  same_inputs s1 s2 → same_inputs (run_op op s1) (run_op op s2).
Proof.
  intros (Hq & Hi & Hsel & Hh & Ht). unfold same_inputs.
  destruct op as [v|v|i|i|now]; simpl; try by rewrite ?Hq, ?Hi, ?Hsel, ?Hh, ?Ht.
  unfold load_answer. rewrite Hh.
  by destruct (answers_history s2 !! i); simpl; rewrite ?Hq, ?Hi, ?Ht.
Qed.

Lemma run_ops_same_inputs ops s1 s2 :
  same_inputs s1 s2 → same_inputs (run_ops ops s1) (run_ops ops s2).
Proof.
  intros Hs. induction ops as [|op ops IH] using rev_ind; [done|].
  rewrite !run_ops_snoc. by apply run_op_same_inputs.
Qed.

Lemma calculate_results_same_inputs now s1 s2 :
  same_inputs s1 s2 → calculate_results now s1 = calculate_results now s2.
Proof.
  intros (Hq & Hi & Hsel & Hh & Ht). unfold calculate_results.
  by rewrite Hq, Hi, Hsel, Hh, Ht.
Qed.

(** X11. The result fields are outputs only. A call of
    [calculate_results] reads the questions, the history and the start
    time and nothing of an earlier result, so an early call (a forced
    finish, say) followed by any further operations gives, at the next
    call, the same session as if the early call had not been made. *)
Theorem results_never_feed_back (s : CurrentTestState) (now1 now2 : float)
    (ops : list session_op) :
  calculate_results now2 (run_ops ops (calculate_results now1 s))
  = calculate_results now2 (run_ops ops s).
Proof.
  apply calculate_results_same_inputs, run_ops_same_inputs.
  by repeat split.
Qed.

Lemma grade_of_mono (p p' : float) :
  (p ≤ p')%Qc → (grade_rank (grade_of p) ≤ grade_rank (grade_of p'))%nat.
Proof.
  intros Hp. unfold grade_of.
  repeat case_bool_decide;
    first [ by (vm_compute; lia) | exfalso; qc_order ].
Qed.

(** X12. Getting more answers right never lowers the grade: for the same
    number of questions, a larger count of correct answers gives a grade
    that is at least as high. *)
Theorem more_right_never_lowers_grade (c c' t : Z) :
  c ≤ c' →
  (grade_rank (grade_of (percentage_of c t))
   ≤ grade_rank (grade_of (percentage_of c' t)))%nat.
Proof. intros Hc. by apply grade_of_mono, percentage_of_mono. Qed.

Lemma more_right_never_lowers_grade_witness :
  (grade_rank (grade_of (percentage_of 2 3))
   ≤ grade_rank (grade_of (percentage_of 3 3)))%nat.
Proof. apply more_right_never_lowers_grade. lia. Defined.

Lemma saved_indices_snoc ops op :
  saved_indices (ops ++ [op])
  = saved_indices ops
    ∪ match op with OpSaveAnswer i => {[i]} | _ => ∅ end.
Proof.
  unfold saved_indices. rewrite omap_app, list_to_set_app_L.
  f_equal. destruct op; simpl; set_solver.
Qed.

(** X13. No operation removes a history entry: after any run of
    operations the indices that have an entry are the ones that had one
    before together with the ones an answer was saved for, in range or
    not. *)
Theorem history_only_grows (ops : list session_op) (s : CurrentTestState) :
  dom (answers_history (run_ops ops s))
  = dom (answers_history s) ∪ saved_indices ops.
Proof.
  induction ops as [|op ops IH] using rev_ind.
  - unfold saved_indices. simpl. set_solver.
  - rewrite run_ops_snoc, saved_indices_snoc.
    destruct op as [v|v|i|i|now]; simpl.
    + rewrite IH. set_solver.
    + rewrite IH. set_solver.
    + rewrite dom_insert_L, IH. set_solver.
    + unfold load_answer.
      destruct (answers_history (run_ops ops s) !! i); simpl;
        rewrite IH; set_solver.
    + rewrite IH. set_solver.
Qed.

(** ** The loader, record by record *)

Lemma parse_item_loadable_eq d (fields : gmap string json)
    (correct_str : string) :
  default (JStr "") (fields !! "correct_answers") = JStr correct_str →
  loadable fields correct_str = true →
  ∃ text,
    fields !! "question" = Some (JStr text)
    ∧ parse_item d (JObj fields)
      = inr (Some {| question := text;
                     options := omap json_text (record_options fields);
                     correct_answers := digit_token_values correct_str;
                     difficulty := d;
                     original_options := None;
                     shuffle_mapping := None |}).
Proof.
  intros Hfield Hload.
  destruct (parse_item_loadable d fields correct_str Hfield Hload)
    as (q & Hparse & Hq & Hcorrect & Hopts).
  rewrite Hparse. revert Hparse.
  rewrite (parse_item_unfold d _ _ Hfield). cbv zeta.
  repeat (case_bool_decide; [done|]).
  destruct (forallb token_converts _); simpl; [|done].
  case_bool_decide; [done|].
  rewrite question_text_closed.
  destruct (fields !! "question") as [[| | | |text| |]|]; simpl; try done.
  destruct (forallb is_str _); simpl; [|done].
  destruct (Question_new text _ _ d) as [e|q'] eqn:Hnew; simpl; [done|].
  intros [= <-]. exists text. split; [done|].
  destruct (Question_new_inv _ _ _ _ _ Hnew) as (Ht & Ho & Hne & Hc).
  rewrite (Question_new_inr _ _ _ d Ht Ho Hne Hc) in Hnew.
  by injection Hnew as <-.
Qed.

(** The three ways a record can go. *)
Lemma parse_item_cases d item :
  (record_aborts item = true ∧ record_loads item = false
   ∧ parse_item d item = inl AttributeError)
  ∨ (record_aborts item = false ∧ record_loads item = false
     ∧ (parse_item d item = inr None
        ∨ ∃ e, parse_item d item = inl e ∧ caught e = true))
  ∨ (record_aborts item = false ∧ record_loads item = true
     ∧ ∃ q, parse_item d item = inr (Some q)
            ∧ Question_valid q
            ∧ difficulty q = d
            ∧ original_options q = None).
Proof.
  destruct item as [| | | | | |fields]; try (left; by repeat split).
  unfold record_aborts, record_loads.
  destruct (default (JStr "") (fields !! "correct_answers"))
    as [| | | |correct_str| |] eqn:Hfield.
  5: {
    right. simpl. rewrite andb_false_r.
    destruct (loadable fields correct_str) eqn:Hload.
    - right. split; [done|]. split; [done|].
      destruct (parse_item_loadable_eq d fields correct_str Hfield Hload)
        as (text & _ & Hparse).
      destruct (parse_item_loadable d fields correct_str Hfield Hload)
        as (q & Hparse' & Hq & _).
      exists q. split; [done|]. split; [done|].
      rewrite Hparse in Hparse'. by injection Hparse' as <-.
    - left. split; [done|]. split; [done|].
      by apply (parse_item_not_loadable d fields correct_str). }
  all: simpl; rewrite andb_true_r.
  all: unfold parse_item, record_options;
    cbn [json_get mbind result_bind mret result_ret].
  all: destruct (default (JArr []) (fields !! "options"));
    try (right; left; split; [done|]; split; [done|]; by left).
  all: case_bool_decide;
    [right; left; split; [done|]; split; [done|]; by left|].
  all: left; split; [done|]; split; [done|]; by rewrite Hfield.
Qed.

Section LoadFacts.
Context `{Random}.

Lemma process_item_aborting d item g :
  record_aborts item = true →
  process_item d item g = (Aborted AttributeError, g).
Proof.
  intros Ha. unfold process_item.
  destruct (parse_item_cases d item)
    as [(_ & _ & ->)|[(Hb & _)|(Hb & _)]]; [done|congruence..].
Qed.

Lemma process_item_passing d item g :
  record_aborts item = false → record_loads item = false →
  process_item d item g = (Skipped, g).
Proof.
  intros Ha Hl.
  destruct (parse_item_cases d item)
    as [(Hb & _)|[(_ & _ & Hskip)|(_ & Hb & _)]]; [congruence| |congruence].
  by apply process_item_skipped.
Qed.

Lemma process_item_loading d item g :
  record_loads item = true →
  ∃ q, Question_valid q ∧ difficulty q = d ∧ original_options q = None
       ∧ process_item d item g
         = (Loaded (shuffled (draw g (length (options q))) q),
            advance g (length (options q))).
Proof.
  intros Hl.
  destruct (parse_item_cases d item)
    as [(_ & Hb & _)|[(_ & Hb & _)|(_ & _ & q & Hparse & Hq & Hd & Ho)]];
    [congruence..|].
  exists q. do 3 (split; [done|]). by apply process_item_loaded.
Qed.

Lemma shuffled_fresh d (indices : list Z) (q : Question) :
  Question_valid q → difficulty q = d → original_options q = None →
  indices ≡ₚ range (length (options q)) →
  freshly_shuffled d (shuffled indices q).
Proof.
  intros Hq Hd Ho Hperm. split; [|split; [done|]].
  - apply shuffled_valid; [done| |done]. apply (valid_correct q Hq).
  - exists (options q), indices. simpl. rewrite Ho. by repeat split.
Qed.

(** The loop either stops at the first record that aborts, or keeps the
    records that load, in order. *)
Lemma parse_loop_outcome d raw : ∀ g acc,
  (Exists (λ item, record_aborts item = true) raw
   ∧ parse_loop d raw g acc = inl AttributeError)
  ∨ (Forall (λ item, record_aborts item = false) raw
     ∧ ∃ qs g',
         parse_loop d raw g acc = inr (acc ++ qs, g')
         ∧ length qs = length (filter (λ item, record_loads item = true) raw)
         ∧ Forall (freshly_shuffled d) qs).
Proof.
  induction raw as [|item raw IH]; intros g acc.
  - right. split; [done|]. exists [], g. by rewrite app_nil_r.
  - simpl. destruct (record_aborts item) eqn:Ha.
    { left. split; [by left|]. by rewrite process_item_aborting. }
    destruct (record_loads item) eqn:Hl.
    + destruct (process_item_loading d item g Hl)
        as (q & Hq & Hd & Ho & ->).
      set (q' := shuffled _ q).
      destruct (IH (advance g (length (options q))) (acc ++ [q']))
        as [[Hex Hrun]|(Hall & qs & g' & Hrun & Hlen & Hfresh)].
      * left. split; [by right|done].
      * right. split; [by constructor|]. exists (q' :: qs), g'.
        rewrite Hrun, <- app_assoc. split; [done|]. split.
        -- rewrite filter_cons_True by done. simpl. by rewrite Hlen.
        -- constructor; [|done].
           apply shuffled_fresh; [done..|apply draw_perm].
    + rewrite (process_item_passing d item g Ha Hl).
      destruct (IH g acc)
        as [[Hex Hrun]|(Hall & qs & g' & Hrun & Hlen & Hfresh)].
      * left. split; [by right|done].
      * right. split; [by constructor|]. exists qs, g'.
        split; [done|]. split; [|done].
        rewrite filter_cons_False; [done|]. by rewrite Hl.
Qed.

Lemma reorder_Forall {A} (P : A → Prop) (p : list Z) (l : list A) :
  Forall P l → Forall P (reorder p l).
Proof.
  intros Hl. apply Forall_forall. intros x Hx.
  apply list_elem_of_omap in Hx as (i & _ & Hi).
  by apply (Forall_lookup_1 _ _ _ _ Hl Hi).
Qed.

Lemma slice_to_sublist {A} (l : list A) stop : slice_to l stop `sublist_of` l.
Proof. unfold slice_to. case_bool_decide; apply sublist_take. Qed.

Lemma ordering_perm user_id g n : ordering user_id g n ≡ₚ range n.
Proof. apply draw_perm. Qed.

Lemma select_questions_facts target user_id g (qs : list Question) :
  length (select_questions target user_id g qs)
  = selected_length target (length qs)
  ∧ select_questions target user_id g qs ⊆+ qs
  ∧ (Z.of_nat (length qs) ≤ target →
     select_questions target user_id g qs ≡ₚ qs).
Proof.
  unfold select_questions, selected_length.
  destruct qs as [|q qs].
  { simpl. split; [|done]. repeat case_bool_decide; lia. }
  set (all := q :: qs).
  pose proof (reorder_perm (ordering user_id g (length all)) all
                (ordering_perm _ _ _)) as Hperm.
  pose proof (Permutation_length Hperm) as Hlen. rewrite Hlen.
  case_bool_decide as Hfew.
  - split; [done|]. split; [by apply Permutation_submseteq|done].
  - split; [|split].
    + unfold slice_to. case_bool_decide; rewrite length_take, ?Hlen; lia.
    + etransitivity; [apply sublist_submseteq, slice_to_sublist|].
      by apply Permutation_submseteq.
    + intros Hall. unfold slice_to.
      rewrite bool_decide_eq_true_2 by lia.
      rewrite take_ge by lia. done.
Qed.

Lemma parse_loop_app d (l1 l2 : list json) : ∀ g acc,
  parse_loop d (l1 ++ l2) g acc
  = match parse_loop d l1 g acc with
    | inl e => inl e
    | inr (qs, g') => parse_loop d l2 g' qs
    end.
Proof.
  induction l1 as [|item l1 IH]; intros g acc; simpl; [done|].
  destruct (process_item d item g) as [[q| |e] g']; by rewrite ?IH.
Qed.

Lemma record_loads_inv item :
  record_loads item = true →
  ∃ fields correct_str,
    item = JObj fields
    ∧ default (JStr "") (fields !! "correct_answers") = JStr correct_str
    ∧ loadable fields correct_str = true.
Proof.
  destruct item as [| | | | | |fields]; try done. simpl.
  destruct (default (JStr "") (fields !! "correct_answers"))
    as [| | | |correct_str| |] eqn:Hfield; try done.
  intros Hload. by exists fields, correct_str.
Qed.

(** What the loop does with a record that loads, in full. *)
Lemma loaded_record d fields correct_str g :
  default (JStr "") (fields !! "correct_answers") = JStr correct_str →
  loadable fields correct_str = true →
  ∃ text,
    fields !! "question" = Some (JStr text)
    ∧ let q0 := record_question d fields correct_str text in
      let arrangement := draw g (length (options q0)) in
      parse_item d (JObj fields) = inr (Some q0)
      ∧ shuffle_options arrangement q0 = inr (shuffled arrangement q0)
      ∧ Question_valid (shuffled arrangement q0)
      ∧ process_item d (JObj fields) g
        = (Loaded (shuffled arrangement q0),
           advance g (length (options q0))).
Proof.
  intros Hfield Hload.
  destruct (parse_item_loadable_eq d fields correct_str Hfield Hload)
    as (text & Htext & Hparse).
  exists text. split; [done|]. cbv zeta.
  fold (record_question d fields correct_str text) in Hparse.
  pose proof (parse_item_valid _ _ _ Hparse) as Hq.
  split; [done|]. split; [|split].
  - apply shuffle_options_shuffled; [apply draw_perm|].
    apply (valid_correct _ Hq).
  - apply shuffled_valid; [apply draw_perm| |done].
    apply (valid_correct _ Hq).
  - by apply process_item_loaded.
Qed.

(** Every question that the loop keeps comes from one record of the
    list, by the arrangement drawn when the loop reached that record. *)
Lemma parse_loop_provenance d (records : list json) (g : rng) :
  ∀ rest before acc g0 qs g',
    records = before ++ rest →
    parse_loop d before g [] = inr (acc, g0) →
    parse_loop d rest g0 acc = inr (qs, g') →
    Forall (loaded_from d records g) acc →
    Forall (loaded_from d records g) qs.
Proof.
  induction rest as [|item rest IH];
    intros before acc g0 qs g' Hrecords Hbefore Hrun Hacc.
  { simpl in Hrun. by injection Hrun as <- <-. }
  simpl in Hrun.
  assert (records = (before ++ [item]) ++ rest) as Hrecords'
    by (by rewrite <- app_assoc).
  destruct (record_aborts item) eqn:Ha.
  { by rewrite (process_item_aborting d item g0 Ha) in Hrun. }
  destruct (record_loads item) eqn:Hl.
  - destruct (record_loads_inv item Hl)
      as (fields & correct_str & -> & Hfield & Hload).
    destruct (loaded_record d fields correct_str g0 Hfield Hload)
      as (text & Htext & Hparse & Hshuffle & Hvalid & Hstep).
    rewrite Hstep in Hrun.
    eapply (IH (before ++ [JObj fields]) _ _ qs g' Hrecords'); [|done|].
    + rewrite parse_loop_app, Hbefore. simpl. by rewrite Hstep.
    + apply Forall_app. split; [done|]. apply Forall_singleton.
      exists before, fields, rest, correct_str, text, acc, g0.
      do 4 (split; [done|]). cbv zeta.
      split; [done|]. split; [done|].
      do 6 (split; [reflexivity|]). done.
  - rewrite (process_item_passing d item g0 Ha Hl) in Hrun.
    apply (IH (before ++ [item]) acc g0 qs g' Hrecords'); [|done|done].
    rewrite parse_loop_app, Hbefore. simpl.
    by rewrite (process_item_passing d item g0 Ha Hl).
Qed.

End LoadFacts.

(** X14. The only exception that leaves the loader is [AttributeError],
    and it leaves exactly when some record of the list is not an object,
    or has a list of at least 3 options together with a correct-answer
    field that is not a string; a value that is not a list gives the empty
    result. *)
Theorem load_aborts_iff `{Random}
    (difficulty_questions : Difficulty → option Z) (raw_data : json)
    (d : Difficulty) (user_id : option Z) (g : rng) (e : exn) :
  load_questions difficulty_questions raw_data d user_id g = inl e
  ↔ e = AttributeError
    ∧ ∃ records, raw_data = JArr records
                 ∧ Exists (λ item, record_aborts item = true) records.
Proof.
  unfold load_questions.
  destruct raw_data as [| | | | |records|];
    try (split; [done|by intros (_ & records & ? & _)]).
  destruct (parse_loop_outcome d records g [])
    as [[Hex ->]|(Hall & qs & g' & -> & _)]; simpl.
  - split; [|by intros [-> _]].
    intros [= <-]. split; [done|]. by exists records.
  - split; [done|]. intros (_ & records' & [= <-] & Hex).
    exfalso. apply Exists_exists in Hex as (item & Hin & Hab).
    apply (proj1 (Forall_forall _ _) Hall) in Hin. congruence.
Qed.

(** X15. When no record aborts, the loader returns, and the number of
    questions it returns is fixed by the records alone: with [n] records
    that pass every check, it is [n] when [n] is below the target count,
    else the target count (or, for a negative target count, [n] plus the
    target count, but not less than 0). *)
Theorem load_result_length `{Random}
    (difficulty_questions : Difficulty → option Z) (records : list json)
    (d : Difficulty) (user_id : option Z) (g : rng) :
  Forall (λ item, record_aborts item = false) records →
  ∃ l, load_questions difficulty_questions (JArr records) d user_id g
       = inr l
       ∧ length l
         = selected_length
             (default 30 (difficulty_questions d))
             (length (filter (λ item, record_loads item = true) records)).
Proof.
  intros Hall. unfold load_questions.
  destruct (parse_loop_outcome d records g [])
    as [[Hex _]|(_ & qs & g' & -> & Hlen & _)]; simpl.
  - exfalso. apply Exists_exists in Hex as (item & Hin & Hab).
    apply (proj1 (Forall_forall _ _) Hall) in Hin. congruence.
  - eexists. split; [done|].
    rewrite <- Hlen. apply select_questions_facts.
Qed.

Lemma load_result_length_witness :
  ∃ l, load_questions (H:=rotation_random) (λ _, Some 2) (JArr sample_bank)
         Basic (Some 7) 1 = inr l
       ∧ length l
         = selected_length
             (default 30 (Some 2))
             (length (filter (λ item, record_loads item = true)
                             sample_bank)).
Proof.
  apply (load_result_length (H:=rotation_random) (λ _, Some 2) sample_bank
           Basic (Some 7) 1).
  repeat (apply Forall_cons_2; [by vm_compute|]). apply Forall_nil_2.
Defined.

(** X16. Every question that the loader returns comes from one record
    of the file by exactly one [shuffle_options] call: the record is an
    object of the list; the question before the call is the one that the
    constructor gives for the text, the option list and the
    correct-answer field of that record; the arrangement is the one
    drawn in the generator state that the loop has reached after the
    records before it; and the returned question is what the call
    leaves, with the option list of the record in [original_options],
    the drawn arrangement in [shuffle_mapping], the options in that
    arrangement and the correct positions moved with them. *)
Theorem loaded_questions_fresh `{Random}
    (difficulty_questions : Difficulty → option Z) (records : list json)
    (d : Difficulty) (user_id : option Z) (g : rng) :
  Forall (λ item, record_aborts item = false) records →
  ∃ l, load_questions difficulty_questions (JArr records) d user_id g
       = inr l
       ∧ Forall (loaded_from d records g) l.
Proof.
  intros Hall. unfold load_questions.
  destruct (parse_loop_outcome d records g [])
    as [[Hex _]|(_ & qs & g' & Hrun & _)]; simpl.
  - exfalso. apply Exists_exists in Hex as (item & Hin & Hab).
    apply (proj1 (Forall_forall _ _) Hall) in Hin. congruence.
  - rewrite Hrun. simpl. eexists. split; [done|].
    pose proof (parse_loop_provenance d records g records [] [] g qs g'
                  eq_refl eq_refl Hrun (Forall_nil_2 _)) as Hfrom.
    destruct (select_questions_facts (default 30 (difficulty_questions d))
                user_id g' qs) as (_ & Hsub & _).
    apply Forall_forall. intros q Hq.
    apply (proj1 (Forall_forall _ _) Hfrom).
    by apply (elem_of_submseteq _ _ _ Hq).
Qed.

Lemma loaded_questions_fresh_witness :
  ∃ l, load_questions (H:=rotation_random) (λ _, Some 2) (JArr sample_bank)
         Basic (Some 7) 1 = inr l
       ∧ Forall (loaded_from (H:=rotation_random) Basic sample_bank 1) l.
Proof.
  apply (loaded_questions_fresh (H:=rotation_random) (λ _, Some 2)
           sample_bank Basic (Some 7) 1).
  repeat (apply Forall_cons_2; [by vm_compute|]). apply Forall_nil_2.
Defined.

(** X17. The selection neither repeats nor invents a question: what the
    loader returns is, as a multiset, part of the questions that the
    parsing loop kept, and all of them when they are no more than the
    target count. *)
Theorem selection_within_survivors `{Random}
    (difficulty_questions : Difficulty → option Z) (records : list json)
    (d : Difficulty) (user_id : option Z) (g : rng) :
  Forall (λ item, record_aborts item = false) records →
  ∃ qs g' l,
    parse_loop d records g [] = inr (qs, g')
    ∧ load_questions difficulty_questions (JArr records) d user_id g
      = inr l
    ∧ l ⊆+ qs
    ∧ (Z.of_nat (length qs) ≤ default 30 (difficulty_questions d) →
       l ≡ₚ qs).
Proof.
  intros Hall. unfold load_questions.
  destruct (parse_loop_outcome d records g [])
    as [[Hex _]|(_ & qs & g' & Hrun & _)]; simpl.
  - exfalso. apply Exists_exists in Hex as (item & Hin & Hab).
    apply (proj1 (Forall_forall _ _) Hall) in Hin. congruence.
  - rewrite Hrun. simpl. eexists qs, g', _.
    split; [done|]. split; [done|].
    apply select_questions_facts.
Qed.

Lemma selection_within_survivors_witness :
  ∃ qs g' l,
    parse_loop (H:=rotation_random) Basic sample_bank 1 [] = inr (qs, g')
    ∧ load_questions (H:=rotation_random) (λ _, Some 2) (JArr sample_bank)
        Basic (Some 7) 1 = inr l
    ∧ l ⊆+ qs
    ∧ (Z.of_nat (length qs) ≤ default 30 (Some 2) → l ≡ₚ qs).
Proof.
  apply (selection_within_survivors (H:=rotation_random) (λ _, Some 2)
           sample_bank Basic (Some 7) 1).
  repeat (apply Forall_cons_2; [by vm_compute|]). apply Forall_nil_2.
Defined.

Section PassedOver.
Context `{Random}.

Lemma parse_loop_without d pre item post : ∀ g acc,
  record_aborts item = false → record_loads item = false →
  parse_loop d (pre ++ item :: post) g acc
  = parse_loop d (pre ++ post) g acc.
Proof.
  intros g acc Ha Hl. revert g acc.
  induction pre as [|first pre IH]; intros g acc; simpl.
  - by rewrite (process_item_passing d item g Ha Hl).
  - destruct (process_item d first g) as [[q| |e] g']; [apply IH..|done].
Qed.

End PassedOver.

(** X18. A record that is passed over leaves no trace: taking it out of
    the list changes nothing in what the loader returns, neither the
    questions nor their order nor the arrangement of their options. *)
Theorem passed_over_record_leaves_no_trace `{Random}
    (difficulty_questions : Difficulty → option Z)
    (pre post : list json) (item : json) (d : Difficulty)
    (user_id : option Z) (g : rng) :
  record_aborts item = false →
  record_loads item = false →
  load_questions difficulty_questions (JArr (pre ++ item :: post)) d
                 user_id g
  = load_questions difficulty_questions (JArr (pre ++ post)) d user_id g.
Proof.
  intros Ha Hl. unfold load_questions.
  by rewrite (parse_loop_without d pre item post g [] Ha Hl).
Qed.

Lemma passed_over_record_leaves_no_trace_witness :
  load_questions (H:=rotation_random) (λ _, None)
    (JArr ([sample_record "Q1" "1,3" ["A"; "B"; "C"]]
           ++ sample_record "Q2" "1" ["A"; "B"]
           :: [sample_record "Q4" "2" ["A"; "B"; "C"; "D"]]))
    Basic (Some 7) 1
  = load_questions (H:=rotation_random) (λ _, None)
      (JArr ([sample_record "Q1" "1,3" ["A"; "B"; "C"]]
             ++ [sample_record "Q4" "2" ["A"; "B"; "C"; "D"]]))
      Basic (Some 7) 1.
Proof.
  apply (passed_over_record_leaves_no_trace (H:=rotation_random)).
  - by vm_compute.
  - by vm_compute.
Defined.

(** ** The correct-answer field *)

Lemma split_nonempty sep s : Str.split sep s ≠ [].
Proof.
  destruct s as [|c s]; simpl; [done|].
  case_bool_decide; [done|]. by destruct (Str.split sep s).
Qed.

Lemma split_joined sep (s1 s2 : string) :
  Str.split sep (s1 +:+ String sep s2)
  = Str.split sep s1 ++ Str.split sep s2.
Proof.
  induction s1 as [|c s1 IH]; simpl.
  - by rewrite bool_decide_eq_true_2.
  - case_bool_decide; [by rewrite IH|].
    rewrite IH. pose proof (split_nonempty sep s1).
    by destruct (Str.split sep s1).
Qed.

Lemma digit_tokens_joined (s1 s2 : string) :
  digit_tokens (s1 +:+ String "," s2) = digit_tokens s1 ++ digit_tokens s2.
Proof.
  unfold digit_tokens. by rewrite split_joined, fmap_app, filter_app.
Qed.

(** X19. The field is read token by token: the set of a field made of
    two parts joined by a comma is the union of the sets of the parts, so
    neither the order of the numbers nor a repetition matters; it fails,
    by [ValueError], exactly when one of the parts does. *)
Theorem joined_field_gives_union (s1 s2 : string) :
  parse_correct_answers (JStr (s1 +:+ String "," s2))
  = match parse_correct_answers (JStr s1),
          parse_correct_answers (JStr s2) with
    | inr set1, inr set2 => inr (set1 ∪ set2)
    | _, _ => inl ValueError
    end.
Proof.
  rewrite !parse_correct_answers_closed, digit_tokens_joined.
  rewrite forallb_app. unfold digit_token_values.
  rewrite digit_tokens_joined, fmap_app, list_to_set_app_L.
  destruct (forallb token_converts (digit_tokens s1));
    destruct (forallb token_converts (digit_tokens s2)); done.
Qed.

Lemma decimal_value_nonneg (l : list ascii) :
  forallb Str.isdecimal l = true → 0 ≤ Str.decimal_value l.
Proof.
  unfold Str.decimal_value.
  assert (∀ acc, 0 ≤ acc → forallb Str.isdecimal l = true →
    0 ≤ foldl (λ acc c, 10 * acc + Str.digit_value c) acc l) as Hgen.
  { induction l as [|c l IH]; intros acc Hacc Hl; simpl; [done|].
    simpl in Hl. apply andb_true_iff in Hl as [Hc Hl].
    apply IH; [|done].
    unfold Str.isdecimal in Hc. apply bool_decide_eq_true in Hc.
    unfold Str.digit_value. lia. }
  by apply Hgen.
Qed.

(** X20. No negative number and no number from a token with a sign ever
    enters the set: every member is the value of a trimmed token made of
    decimal digits, hence at least 0. *)
Theorem parsed_positions_nonnegative (v : json) (correct : gset Z) (i : Z) :
  parse_correct_answers v = inr correct →
  i ∈ correct →
  0 ≤ i
  ∧ ∃ s x, v = JStr s ∧ x ∈ Str.strip <$> Str.split "," s
           ∧ forallb Str.isdecimal (Str.chars x) = true
           ∧ i = Str.decimal_value (Str.chars x).
Proof.
  destruct v as [| | | |s| |]; try done.
  rewrite parse_correct_answers_closed.
  destruct (forallb token_converts (digit_tokens s)) eqn:Hconv; [|done].
  intros [= <-] Hi. unfold digit_token_values in Hi.
  apply elem_of_list_to_set, list_elem_of_fmap in Hi as (x & -> & Hx).
  assert (token_converts x = true) as Hx'.
  { apply (proj1 (forallb_forall _ _) Hconv). by apply list_elem_of_In. }
  apply andb_true_iff in Hx' as [Hdec _].
  split; [by apply decimal_value_nonneg|].
  exists s, x. split; [done|]. split; [|done].
  unfold digit_tokens in Hx. by apply list_elem_of_filter in Hx as [_ ?].
Qed.

Lemma parsed_positions_nonnegative_witness :
  0 ≤ 0
  ∧ ∃ s x, JStr "0,1" = JStr s ∧ x ∈ Str.strip <$> Str.split "," s
           ∧ forallb Str.isdecimal (Str.chars x) = true
           ∧ 0 = Str.decimal_value (Str.chars x).
Proof.
  apply (parsed_positions_nonnegative (JStr "0,1") {[0; 1]} 0).
  - by vm_compute.
  - apply elem_of_union_l, elem_of_singleton. reflexivity.
Defined.

(** ** The elapsed time *)

Lemma Qfloor_unique (x : Q) (z : Z) :
  (inject_Z z <= x)%Q → (x < inject_Z (z + 1))%Q → Qfloor x = z.
Proof.
  intros Hlo Hhi.
  pose proof (Qfloor_resp_le _ _ Hlo) as H1. rewrite Qfloor_Z in H1.
  pose proof (Qfloor_le x) as H2.
  assert (inject_Z (Qfloor x) < inject_Z (z + 1))%Q as H3
    by (eapply Qle_lt_trans; eauto).
  rewrite <- Zlt_Qlt in H3. lia.
Qed.

(** Whole minutes and the seconds left over, on the rationals. *)
Lemma minutes_bounds (x W : Q) :
  (W <= x / 60)%Q → (x / 60 < W + 1)%Q →
  (60 * W <= x)%Q ∧ (x < 60 * W + 60)%Q.
Proof.
  assert (x == 60 * (x / 60))%Q as Hx by (field; done).
  revert Hx. generalize (x / 60)%Q. intros t Hx H1 H2.
  rewrite Hx. split; lra.
Qed.

Lemma seconds_bounds (x y W S : Q) :
  (y == x - 60 * W)%Q →
  (60 * W <= x)%Q → (x < 60 * W + 60)%Q →
  (S <= y)%Q → (y < S + 1)%Q →
  (0 <= y)%Q ∧ (y < 60)%Q
  ∧ (60 * W + S <= x)%Q ∧ (x < 60 * W + S + 1)%Q.
Proof. intros Hy H1 H2 H3 H4. rewrite Hy in *. repeat split; lra. Qed.

Lemma minutes_and_seconds (x y : Q) (w : Z) :
  w = Qfloor (x / inject_Z 60) →
  (y == x - inject_Z 60 * inject_Z w)%Q →
  (0 <= y)%Q ∧ 0 ≤ Qfloor y ≤ 59 ∧ Qfloor x = 60 * w + Qfloor y.
Proof.
  intros Hw Hy.
  pose proof (Qfloor_le (x / inject_Z 60)) as Hw1.
  pose proof (Qlt_floor (x / inject_Z 60)) as Hw2.
  rewrite <- Hw, inject_Z_plus in *.
  pose proof (Qfloor_le y) as Hs1. pose proof (Qlt_floor y) as Hs2.
  rewrite inject_Z_plus in Hs2.
  destruct (minutes_bounds x (inject_Z w) Hw1 Hw2) as [Hx1 Hx2].
  destruct (seconds_bounds x y (inject_Z w) (inject_Z (Qfloor y))
              Hy Hx1 Hx2 Hs1 Hs2) as (Hy0 & Hy60 & Hf1 & Hf2).
  split; [done|].
  assert (0 ≤ Qfloor y ≤ 59) as Hsec.
  { split.
    - exact (Qfloor_resp_le 0 y Hy0).
    - assert (inject_Z (Qfloor y) < inject_Z 60)%Q as Hlt
        by (eapply Qle_lt_trans; eauto).
      rewrite <- Zlt_Qlt in Hlt. lia. }
  split; [done|].
  apply Qfloor_unique.
  - by rewrite inject_Z_plus, inject_Z_mult.
  - by rewrite !inject_Z_plus, inject_Z_mult.
Qed.

Lemma this_Qcdiv (a b : Qc) : (this (a / b)%Qc == this a / this b)%Q.
Proof.
  unfold Qcdiv, Qcmult, Qcinv, Q2Qc; simpl.
  rewrite !Qred_correct. reflexivity.
Qed.

Lemma this_Qcminus (a b : Qc) : (this (a - b)%Qc == this a - this b)%Q.
Proof.
  unfold Qcminus, Qcplus, Qcopp, Q2Qc; simpl.
  rewrite !Qred_correct. reflexivity.
Qed.

Lemma format_02d_two_digits (n : Z) :
  0 ≤ n ≤ 99 → String.length (format_02d n) = 2%nat.
Proof.
  intros Hn.
  assert (Forall (λ k, String.length (format_02d k) = 2%nat) (seqZ 0 100))
    as Hall by (apply (bool_decide_unpack _); by vm_compute).
  apply (proj1 (Forall_forall _ _) Hall), elem_of_seqZ. lia.
Qed.

(** X21. The elapsed time is written as whole minutes, a colon and
    seconds: the seconds lie between 0 and 59 and take exactly two
    characters, and sixty times the minutes plus the seconds is the whole
    number of seconds since the start, so the minutes are not capped at
    59. *)
Theorem elapsed_time_parts (now : float) (s : CurrentTestState) :
  ∃ minutes seconds : Z,
    elapsed_time (calculate_results now s)
    = format_02d minutes +:+ ":" +:+ format_02d seconds
    ∧ 0 ≤ seconds ≤ 59
    ∧ String.length (format_02d seconds) = 2%nat
    ∧ 60 * minutes + seconds = Qfloor (now - start_time s)%Qc.
Proof.
  simpl. unfold format_elapsed.
  set (e := (now - start_time s)%Qc).
  set (w := Qfloor (e / Qc_of_Z 60)%Qc).
  set (y := (e - Qc_of_Z (60 * w))%Qc).
  destruct (minutes_and_seconds (this e) (this y) w)
    as (Hy0 & Hsec & Hfloor).
  { unfold w. by rewrite this_Qcdiv. }
  { unfold y. rewrite this_Qcminus. simpl. by rewrite inject_Z_mult. }
  assert (int_of_float y = Qfloor y) as Hint.
  { unfold int_of_float. by rewrite bool_decide_eq_true_2. }
  rewrite Hint. exists w, (Qfloor y).
  split; [done|]. split; [done|].
  split; [apply format_02d_two_digits; lia|done].
Qed.

(** ** The review of the answers *)

Lemma enumerate_from_snoc {A} start (l : list A) x :
  enumerate_from start (l ++ [x])
  = enumerate_from start l ++ [(start + Z.of_nat (length l), x)].
Proof.
  unfold enumerate_from. rewrite length_app; simpl.
  rewrite Nat2Z.inj_add, seqZ_app by lia. simpl.
  rewrite zip_with_app by (rewrite length_seqZ; lia). done.
Qed.

Lemma lookup_enumerate_from {A} start (l : list A) (k : nat) x :
  l !! k = Some x →
  enumerate_from start l !! k = Some (start + Z.of_nat k, x).
Proof.
  intros Hk. unfold enumerate_from. rewrite lookup_zip_with, Hk.
  rewrite lookup_seqZ_lt; [done|].
  apply lookup_lt_Some in Hk. lia.
Qed.

Lemma review_count history qs :
  Z.of_nat (length (filter
    (λ item, review_is_correct history item.1 item.2 = true)
    (enumerate_from 1 qs)))
  = spec_correct_count history qs.
Proof.
  induction qs as [|q qs IH] using rev_ind; [done|].
  rewrite enumerate_from_snoc, filter_app, length_app, Nat2Z.inj_add, IH.
  rewrite spec_correct_count_snoc. f_equal.
  unfold review_is_correct, dict_get.
  replace (1 + Z.of_nat (length qs) - 1) with (Z.of_nat (length qs))
    by lia.
  case_bool_decide as Heq.
  - rewrite filter_cons_True; [done|]. simpl.
    replace (1 + Z.of_nat (length qs) - 1) with (Z.of_nat (length qs))
      by lia.
    by apply bool_decide_eq_true.
  - rewrite filter_cons_False; [done|]. simpl.
    replace (1 + Z.of_nat (length qs) - 1) with (Z.of_nat (length qs))
      by lia.
    by rewrite bool_decide_eq_true.
Qed.

Lemma append_nil_r (s : string) : s +:+ "" = s.
Proof.
  induction s as [|c s IH]; [done|].
  change (String c (s +:+ "") = String c s). by rewrite IH.
Qed.

Lemma append_assoc (s1 s2 s3 : string) :
  (s1 +:+ s2) +:+ s3 = s1 +:+ s2 +:+ s3.
Proof.
  induction s1 as [|c s1 IH]; [done|].
  change (String c ((s1 +:+ s2) +:+ s3) = String c (s1 +:+ s2 +:+ s3)).
  by rewrite IH.
Qed.

(** The text that the loop accumulates is the header followed by the
    lines. *)
Lemma review_text_lines history (l : list (Z * Question)) : ∀ init,
  foldl (λ text '(i, question),
           text +:+ review_line history i question) init l
  = init +:+ concat_strings
               ((λ '(i, question), review_line history i question) <$> l).
Proof.
  induction l as [|[i q] l IH]; intros init; simpl.
  - by rewrite append_nil_r.
  - by rewrite IH, append_assoc.
Qed.

(** The mark that a line starts with tells whether the answer counted. *)
Lemma line_ticked history i q :
  starts_with "✅" (review_line history i q)
  = review_is_correct history i q.
Proof.
  unfold review_line. cbv zeta.
  by destruct (review_is_correct history i q).
Qed.

Lemma line_crossed history i q :
  starts_with "❌" (review_line history i q)
  = negb (review_is_correct history i q).
Proof.
  unfold review_line. cbv zeta.
  by destruct (review_is_correct history i q).
Qed.

Lemma ticked_lines_count history (l : list (Z * Question)) :
  length (filter (λ line, starts_with "✅" line = true)
            ((λ '(i, question), review_line history i question) <$> l))
  = length (filter
              (λ item, review_is_correct history item.1 item.2 = true) l).
Proof.
  induction l as [|[i q] l IH]; [done|]. csimpl.
  rewrite !filter_cons. simpl. rewrite line_ticked.
  destruct (review_is_correct history i q); simpl; by rewrite IH.
Qed.

Lemma review_is_correct_iff history (k : nat) q :
  review_is_correct history (Z.of_nat k + 1) q = true
  ↔ default ∅ (history !! Z.of_nat k) = correct_answers q.
Proof.
  unfold review_is_correct, dict_get.
  replace (Z.of_nat k + 1 - 1) with (Z.of_nat k) by lia.
  apply bool_decide_eq_true.
Qed.

(** X22. The review screen and the score agree. The text that
    [show_correct_answers] sends is the header, one line for each
    question in order, and the footer; the line of the question at index
    [k] starts with the tick when the history entry of [k] (the empty
    set when there is none) equals the correct positions of the
    question, and with the cross otherwise; and the number of lines that
    start with the tick is the [correct_count] that [calculate_results]
    sets. *)
Theorem review_matches_score (now : float) (s : CurrentTestState) :
  show_correct_answers_text s
  = review_header +:+ concat_strings (review_lines s) +:+ review_footer
  ∧ length (review_lines s) = length (questions s)
  ∧ Z.of_nat (length (filter (λ line, starts_with "✅" line = true)
                             (review_lines s)))
    = correct_count (calculate_results now s)
  ∧ ∀ (k : nat) q,
      questions s !! k = Some q →
      let line := review_line (answers_history s) (Z.of_nat k + 1) q in
      review_lines s !! k = Some line
      ∧ (starts_with "✅" line = true
         ↔ default ∅ (answers_history s !! Z.of_nat k)
           = correct_answers q)
      ∧ (starts_with "❌" line = true
         ↔ default ∅ (answers_history s !! Z.of_nat k)
           ≠ correct_answers q).
Proof.
  split; [|split; [|split]].
  - unfold show_correct_answers_text, review_lines, review_footer.
    cbv zeta. rewrite review_text_lines. fold review_header.
    by rewrite !append_assoc.
  - unfold review_lines, enumerate_from.
    rewrite length_fmap, length_zip_with, length_seqZ. lia.
  - unfold review_lines. rewrite ticked_lines_count, review_count.
    simpl. by rewrite count_correct_spec.
  - intros k q Hk. cbv zeta. split; [|split].
    + unfold review_lines. rewrite list_lookup_fmap.
      rewrite (lookup_enumerate_from 1 _ k q Hk). simpl.
      do 2 f_equal. lia.
    + rewrite line_ticked. apply review_is_correct_iff.
    + rewrite line_crossed, negb_true_iff, <- not_true_iff_false.
      by rewrite review_is_correct_iff.
Qed.

(** The review of the scenario: three lines, the first two ticked. *)
Example scenario_review :
  review_lines scenario_session
  = ["✅ <b>Вопрос 1:</b> 2" +:+ newline;
     "✅ <b>Вопрос 2:</b> 1, 3" +:+ newline;
     "❌ <b>Вопрос 3:</b> 4" +:+ newline].
Proof. by vm_compute. Qed.

(** ** The files of a bank *)

Lemma chosen_path_raises (files : Files) (specialization name : string)
    (e : stat_error) :
  chosen_path files specialization name = inl e
  ↔ path_exists files (nested_path specialization name) = inl e
    ∨ (path_exists files (nested_path specialization name) = inr false
       ∧ path_exists files (flat_with_suffix specialization name) = inl e)
    ∨ (path_exists files (nested_path specialization name) = inr false
       ∧ path_exists files (flat_with_suffix specialization name)
         = inr false
       ∧ path_exists files (general_path specialization) = inl e).
Proof.
  unfold chosen_path.
  destruct (path_exists files (nested_path _ _)) as [e1|[|]];
    [naive_solver..|].
  destruct (path_exists files (flat_with_suffix _ _)) as [e2|[|]];
    [naive_solver..|].
  destruct (path_exists files (general_path _)) as [e3|[|]];
    naive_solver.
Qed.

Lemma chosen_path_none (files : Files) (specialization name : string) :
  chosen_path files specialization name = inr None
  ↔ path_exists files (nested_path specialization name) = inr false
    ∧ path_exists files (flat_with_suffix specialization name) = inr false
    ∧ path_exists files (general_path specialization) = inr false.
Proof.
  unfold chosen_path.
  destruct (path_exists files (nested_path _ _)) as [e1|[|]];
    [naive_solver..|].
  destruct (path_exists files (flat_with_suffix _ _)) as [e2|[|]];
    [naive_solver..|].
  destruct (path_exists files (general_path _)) as [e3|[|]];
    naive_solver.
Qed.

(** The path that is read is the first of the three that exists, and
    every check before it answered [False]. *)
Lemma chosen_path_some (files : Files) (specialization name : string)
    (p : list string) :
  chosen_path files specialization name = inr (Some p)
  ↔ (path_exists files (nested_path specialization name) = inr true
     ∧ p = nested_path specialization name)
    ∨ (path_exists files (nested_path specialization name) = inr false
       ∧ path_exists files (flat_with_suffix specialization name)
         = inr true
       ∧ p = flat_with_suffix specialization name)
    ∨ (path_exists files (nested_path specialization name) = inr false
       ∧ path_exists files (flat_with_suffix specialization name)
         = inr false
       ∧ path_exists files (general_path specialization) = inr true
       ∧ p = general_path specialization).
Proof.
  unfold chosen_path.
  destruct (path_exists files (nested_path _ _)) as [e1|[|]];
    [naive_solver..|].
  destruct (path_exists files (flat_with_suffix _ _)) as [e2|[|]];
    [naive_solver..|].
  destruct (path_exists files (general_path _)) as [e3|[|]];
    naive_solver.
Qed.

(** X23. Three things make the loader raise, and nothing else does: an
    existence check that is reached raises (the checks stand outside the
    [try], and a check is reached when every check before it answered
    [False]); the chosen file cannot be read for a reason other than a
    decoding error or a refused permission; or the file holds a list
    with a record that aborts (then by [AttributeError]). A missing
    file, a decoding error and a permission refused when the file is
    opened never raise. *)
Theorem loader_failures `{Random} (files : Files)
    (difficulty_value : Difficulty → string)
    (difficulty_questions : gmap string Z) (specialization : string)
    (d : Difficulty) (user_id : option Z) (g : rng) (f : load_failure) :
  let name := default "basic" (difficulty_map !! difficulty_value d) in
  let nested := path_exists files (nested_path specialization name) in
  let flat := path_exists files (flat_with_suffix specialization name) in
  let general := path_exists files (general_path specialization) in
  load_questions_for_specialization files difficulty_value
    difficulty_questions specialization d user_id g = inl f
  ↔ (∃ e, f = ExistsFailure e
          ∧ (nested = inl e
             ∨ (nested = inr false ∧ flat = inl e)
             ∨ (nested = inr false ∧ flat = inr false ∧ general = inl e)))
    ∨ ∃ p,
        chosen_path files specialization name = inr (Some p)
        ∧ ((path_load files p = FileRaises OtherFileError
            ∧ f = FileFailure OtherFileError)
           ∨ (∃ records,
                path_load files p = FileJSON (JArr records)
                ∧ Exists (λ item, record_aborts item = true) records
                ∧ f = RecordFailure AttributeError)).
Proof.
  cbv zeta. unfold load_questions_for_specialization. cbv zeta.
  setoid_rewrite <- chosen_path_raises.
  destruct (chosen_path files specialization _) as [e|[p|]].
  - split.
    + intros [= <-]. left. by exists e.
    + by intros [(e0 & -> & [= <-])|(p & [=] & _)].
  - split.
    + intros Hf. right. exists p. split; [done|].
      destruct (path_load files p) as [raw|[| |]]; try done.
      * right. unfold load_questions in Hf.
        destruct raw as [| | | | |records|]; try done.
        destruct (parse_loop_outcome d records g [])
          as [[Hex Hrun]|(_ & qs & g' & Hrun & _)];
          rewrite Hrun in Hf; simpl in Hf; [|done].
        injection Hf as <-. by exists records.
      * left. by injection Hf as <-.
    + intros [(e & _ & [=])|(p' & [= <-] & Hcase)].
      destruct Hcase as [[-> ->]|(records & -> & Hex & ->)]; [done|].
      unfold load_questions.
      destruct (parse_loop_outcome d records g [])
        as [[_ ->]|(Hall & _)]; [done|].
      exfalso. apply Exists_exists in Hex as (item & Hin & Hab).
      apply (proj1 (Forall_forall _ _) Hall) in Hin. congruence.
  - split; [done|]. by intros [(e & _ & [=])|(p & [=] & _)].
Qed.

(** A directory that may not be searched: the first existence check
    raises [PermissionError], and the call raises it, although the
    [except] clause of the function names that exception. *)
Example locked_directory_raises :
  load_questions_for_specialization (H:=rotation_random) locked_files
    sample_difficulty_value ∅ "upravlenie" Basic None 1
  = inl (ExistsFailure StatPermissionError).
Proof. by vm_compute. Qed.

(** X24. The empty list is returned in exactly these cases: each of the
    three existence checks answers [False]; the chosen file fails to
    decode or may not be opened; it decodes to something that is not a
    list; or it holds a list without an aborting record of which the
    selection keeps nothing (no record passes the checks, or the target
    count leaves none). The caller cannot tell these cases apart from
    the result. An existence check that raises gives no result at
    all. *)
Theorem empty_result_iff `{Random} (files : Files)
    (difficulty_value : Difficulty → string)
    (difficulty_questions : gmap string Z) (specialization : string)
    (d : Difficulty) (user_id : option Z) (g : rng) :
  let name := default "basic" (difficulty_map !! difficulty_value d) in
  let chosen := chosen_path files specialization name in
  load_questions_for_specialization files difficulty_value
    difficulty_questions specialization d user_id g = inr []
  ↔ (path_exists files (nested_path specialization name) = inr false
     ∧ path_exists files (flat_with_suffix specialization name)
       = inr false
     ∧ path_exists files (general_path specialization) = inr false)
    ∨ ∃ p,
        chosen = inr (Some p)
        ∧ (path_load files p = FileRaises JSONDecodeError
           ∨ path_load files p = FileRaises PermissionError
           ∨ ∃ raw,
               path_load files p = FileJSON raw
               ∧ ((∀ records, raw ≠ JArr records)
                  ∨ ∃ records,
                      raw = JArr records
                      ∧ Forall (λ item, record_aborts item = false) records
                      ∧ selected_length
                          (default 30
                             (difficulty_questions !! difficulty_value d))
                          (length (filter
                             (λ item, record_loads item = true) records))
                        = 0%nat)).
Proof.
  cbv zeta. unfold load_questions_for_specialization. cbv zeta.
  rewrite <- chosen_path_none.
  destruct (chosen_path files specialization _) as [e|[p|]].
  - split; [done|]. by intros [[=]|(p & [=] & _)].
  - split.
    + intros Hres. right. exists p. split; [done|].
      destruct (path_load files p) as [raw|[| |]]; try done; auto.
      right; right. exists raw. split; [done|].
      unfold load_questions in Hres.
      destruct raw as [| | | | |records|]; try (by left).
      right. exists records. split; [done|].
      destruct (parse_loop_outcome d records g [])
        as [[_ Hrun]|(Hall & qs & g' & Hrun & Hlen & _)];
        rewrite Hrun in Hres; simpl in Hres; [done|].
      split; [done|]. rewrite <- Hlen.
      destruct (select_questions_facts
        (default 30 (difficulty_questions !! difficulty_value d))
        user_id g' qs) as (<- & _).
      destruct (select_questions _ _ _ _); [done|done].
    + intros [[=]|(p' & [= <-] & Hcase)].
      destruct Hcase as [->|[->|(raw & -> & Hraw)]]; [done..|].
      unfold load_questions.
      destruct Hraw as [Hnot|(records & -> & Hall & Hzero)].
      { destruct raw as [| | | | |records|]; try done.
        by destruct (Hnot records). }
      destruct (parse_loop_outcome d records g [])
        as [[Hex _]|(_ & qs & g' & -> & Hlen & _)]; simpl.
      * exfalso. apply Exists_exists in Hex as (item & Hin & Hab).
        apply (proj1 (Forall_forall _ _) Hall) in Hin. congruence.
      * rewrite <- Hlen in Hzero.
        destruct (select_questions_facts
          (default 30 (difficulty_questions !! difficulty_value d))
          user_id g' qs) as (Hsel & _).
        rewrite Hzero in Hsel. apply nil_length_inv in Hsel.
        by rewrite Hsel.
  - split; [by left|done].
Qed.
